(** * Crossword CSP solver ([crossword/generate.py]): model and properties

    A shallow embedding of [CrosswordCreator]: the domain store, node
    consistency, [revise], [ac3], the completeness and consistency
    predicates, the two ordering heuristics and [backtrack].

    Conventions.
    - A Python [set] is the list of its elements in iteration order; a
      Python [dict] is an association list in insertion order.  Iteration
      order of a set is unspecified in Python, so the general theorems are
      stated for every list.
    - A call either returns, raises, or does not come back ([Timeout]: the
      loop or recursion ran out of the fuel given to the model, or a
      blocking [SimpleQueue.get] waits for ever).
    - [self.ac3()] and [self.revise(...)] are method calls through [self];
      the callers take the callee as an argument ([solve_with],
      [ac3_with]) and the class's own methods are plugged in afterwards
      ([solve], [ac3]). *)

From Stdlib Require Import List String Ascii Arith Bool Lia.
From Stdlib Require Import Permutation Sorted.
Import ListNotations.
Open Scope string_scope.
Open Scope list_scope.

(** ** Outcomes of a call *)

Inductive exn : Type :=
| KeyError
| IndexError
| AttributeError
| ValueError.

Inductive outcome (A : Type) : Type :=
| Return (a : A)
| Raise (e : exn)
| Timeout.

Arguments Return {A} a.
Arguments Raise {A} e.
Arguments Timeout {A}.

Definition bind {A B : Type} (m : outcome A) (k : A -> outcome B) : outcome B :=
  match m with
  | Return a => k a
  | Raise e => Raise e
  | Timeout => Timeout
  end.

Notation "x <- m ;; k" := (bind m (fun x => k))
  (at level 61, m at next level, right associativity).
Notation "' p <- m ;; k" := (bind m (fun p => k))
  (at level 61, p pattern, m at next level, right associativity).

(** ** Python values whose truth value the code tests *)

Inductive pyobj : Type :=
| PyInt (n : nat)
| PyStr (s : string)
| PyBoundMethod (name : string).

(** [bool(o)]: [0] and the empty string are falsy, a bound method is an
    object without [__bool__] or [__len__] and so is truthy. *)
Definition truthy (o : pyobj) : bool :=
  match o with
  | PyInt n => negb (Nat.eqb n 0)
  | PyStr s => negb (Nat.eqb (String.length s) 0)
  | PyBoundMethod _ => true
  end.

(** [w[k]] for a non-negative index. *)
Definition str_index (w : string) (k : nat) : outcome ascii :=
  match String.get k w with
  | Some c => Return c
  | None => Raise IndexError
  end.

(** ** Slots *)

Inductive Direction : Type := ACROSS | DOWN.

(** [Variable] of the grid model: equality is attribute-wise. *)
Record Var : Type := mkVar {
  var_i : nat;
  var_j : nat;
  var_direction : Direction;
  var_length : nat
}.

Definition Direction_eqb (a b : Direction) : bool :=
  match a, b with
  | ACROSS, ACROSS | DOWN, DOWN => true
  | _, _ => false
  end.

Definition Var_eqb (x y : Var) : bool :=
  Nat.eqb (var_i x) (var_i y) && Nat.eqb (var_j x) (var_j y)
  && Direction_eqb (var_direction x) (var_direction y)
  && Nat.eqb (var_length x) (var_length y).

(** ** Dictionaries and sets *)

Section Dict.
Context {V : Type}.

Definition dict := list (Var * V).

Fixpoint dict_lookup (k : Var) (d : dict) : option V :=
  match d with
  | [] => None
  | (k', v) :: d' => if Var_eqb k k' then Some v else dict_lookup k d'
  end.

(** [d[k]] *)
Definition dict_getitem (d : dict) (k : Var) : outcome V :=
  match dict_lookup k d with
  | Some v => Return v
  | None => Raise KeyError
  end.

(** [d[k] = v]: an existing key keeps its place, a new one goes last. *)
Fixpoint dict_setitem (d : dict) (k : Var) (v : V) : dict :=
  match d with
  | [] => [(k, v)]
  | (k', v') :: d' =>
      if Var_eqb k k' then (k', v) :: d' else (k', v') :: dict_setitem d' k v
  end.

(** [del d[k]] *)
Fixpoint dict_delitem (d : dict) (k : Var) : outcome dict :=
  match d with
  | [] => Raise KeyError
  | (k', v') :: d' =>
      if Var_eqb k k' then Return d'
      else d'' <- dict_delitem d' k ;; Return ((k', v') :: d'')
  end.

Definition dict_keys (d : dict) : list Var := map fst d.
End Dict.

Arguments dict V : clear implicits.

Definition pyset := list string.

Fixpoint set_mem (w : string) (s : pyset) : bool :=
  match s with
  | [] => false
  | w' :: s' => String.eqb w w' || set_mem w s'
  end.

Fixpoint set_discard (w : string) (s : pyset) : pyset :=
  match s with
  | [] => []
  | w' :: s' => if String.eqb w w' then s' else w' :: set_discard w s'
  end.

(** [s.remove(w)] *)
Definition set_remove (w : string) (s : pyset) : outcome pyset :=
  if set_mem w s then Return (set_discard w s) else Raise KeyError.

Definition Domains := dict pyset.
Definition Assignment := dict string.

(** [assignment.get(k, 0)] *)
Definition assignment_get (a : Assignment) (k : Var) : pyobj :=
  match dict_lookup k a with
  | Some w => PyStr w
  | None => PyInt 0
  end.

(** ** The grid model *)

(** Modelled from the spec: the grid model ([crossword.py] is not part of
    the sources).  It exposes the slots, the vocabulary and, for a pair of
    slots, the optional overlap position. *)
Record Crossword : Type := mkCrossword {
  variables : list Var;
  words : pyset;
  overlaps : Var -> Var -> option (nat * nat)
}.

(** Modelled from the spec: [neighbors(slot)], all slots with a defined
    overlap against [slot]. *)
Definition neighbors (cw : Crossword) (v : Var) : list Var :=
  filter (fun z => negb (Var_eqb z v) &&
                   match overlaps cw z v with Some _ => true | None => false end)
         (variables cw).

(** ** CrosswordCreator *)

Section Creator.
Context (cw : Crossword).

(** [__init__]: every slot gets its own copy of the vocabulary.  Here each
    copy iterates like the vocabulary; [init_domains_copying] below leaves
    the order of every copy open. *)
Definition init_domains : Domains :=
  map (fun v => (v, words cw)) (variables cw).

(** *** enforce_node_consistency *)

(** [lst]: the words of the domain whose length is not the slot's. *)
Definition wrong_length (v : Var) (s : pyset) : list string :=
  filter (fun w => negb (Nat.eqb (String.length w) (var_length v))) s.

(** [for word in lst: self.domains[i].remove(word)] *)
Fixpoint remove_words (d : Domains) (v : Var) (lst : list string)
  : outcome Domains :=
  match lst with
  | [] => Return d
  | w :: lst' =>
      s <- dict_getitem d v ;;
      s' <- set_remove w s ;;
      remove_words (dict_setitem d v s') v lst'
  end.

(** [for i in self.domains.keys(): ...] *)
Fixpoint node_consistency_loop (keys : list Var) (d : Domains)
  : outcome Domains :=
  match keys with
  | [] => Return d
  | v :: keys' =>
      s <- dict_getitem d v ;;
      d' <- remove_words d v (wrong_length v s) ;;
      node_consistency_loop keys' d'
  end.

Definition enforce_node_consistency (d : Domains) : outcome Domains :=
  node_consistency_loop (dict_keys d) d.

(** *** revise *)

(** [self.domains.remove(word1)]: [self.domains] is the dictionary of all
    domains, and a [dict] has no attribute [remove]. *)
Definition domains_remove (d : Domains) (w : string) : outcome Domains :=
  Raise AttributeError.

(** [for word2 in self.domains[y]: ...] for one [word1]; the result is
    the value of [revised] and the domains when the loop is left. *)
Fixpoint revise_word (ov : nat * nat) (word1 : string) (dy : list string)
         (revised : bool) (d : Domains) : outcome (bool * Domains) :=
  match dy with
  | [] => Return (revised, d)
  | word2 :: dy' =>
      c1 <- str_index word1 (fst ov) ;;
      c2 <- str_index word2 (snd ov) ;;
      if negb (Ascii.eqb c1 c2) then
        d' <- domains_remove d word1 ;;
        Return (true, d')
      else revise_word ov word1 dy' revised d
  end.

(** [for word1 in self.domains[x]: ...] *)
Fixpoint revise_loop (ov : nat * nat) (y : Var) (dx : list string)
         (revised : bool) (d : Domains) : outcome (bool * Domains) :=
  match dx with
  | [] => Return (revised, d)
  | word1 :: dx' =>
      dy <- dict_getitem d y ;;
      '(revised', d') <- revise_word ov word1 dy revised d ;;
      revise_loop ov y dx' revised' d'
  end.

Definition revise (d : Domains) (x y : Var) : outcome (bool * Domains) :=
  match overlaps cw x y with
  | Some ov =>
      dx <- dict_getitem d x ;;
      revise_loop ov y dx false d
  | None => Return (false, d)
  end.

(** *** ac3 *)

Definition arc := (Var * Var)%type.

(** [queue.SimpleQueue]: [put] appends, [get] takes the oldest item and
    blocks on an empty queue. *)
Definition SimpleQueue := list arc.

Definition queue_put (q : SimpleQueue) (a : arc) : SimpleQueue := q ++ [a].

Definition queue_get (q : SimpleQueue) : outcome (arc * SimpleQueue) :=
  match q with
  | [] => Timeout
  | a :: q' => Return (a, q')
  end.

(** [q.empty], the attribute: the method itself, not its result. *)
Definition queue_empty_attr (q : SimpleQueue) : pyobj := PyBoundMethod "empty".

(** [for i in variables: for j in variables: if i != j: q.put((i, j))] *)
Definition all_arcs : list arc :=
  flat_map (fun i =>
              flat_map (fun j => if negb (Var_eqb i j) then [(i, j)] else [])
                       (variables cw))
           (variables cw).

Definition seed_queue (arcs : option (list arc)) : SimpleQueue :=
  fold_left queue_put
            (match arcs with Some l => l | None => all_arcs end) [].

Section WithRevise.
Context (revise_method : Domains -> Var -> Var -> outcome (bool * Domains)).

(** [while not q.empty: ...] *)
Fixpoint ac3_loop (fuel : nat) (q : SimpleQueue) (d : Domains)
  : outcome (bool * Domains) :=
  match fuel with
  | 0 => Timeout
  | S fuel' =>
      if negb (truthy (queue_empty_attr q)) then
        '(a, q1) <- queue_get q ;;
        '(revised, d1) <- revise_method d (fst a) (snd a) ;;
        if revised then
          dx <- dict_getitem d1 (fst a) ;;
          if Nat.eqb (List.length dx) 0 then Return (false, d1)
          else
            ac3_loop fuel'
              (fold_left
                 (fun q' z =>
                    if negb (Var_eqb z (snd a)) then queue_put q' (z, fst a)
                    else q')
                 (neighbors cw (fst a)) q1)
              d1
        else ac3_loop fuel' q1 d1
      else Return (true, d)
  end.

Definition ac3_with (fuel : nat) (arcs : option (list arc)) (d : Domains)
  : outcome (bool * Domains) :=
  ac3_loop fuel (seed_queue arcs) d.
End WithRevise.

Definition ac3 : nat -> option (list arc) -> Domains -> outcome (bool * Domains) :=
  ac3_with revise.

(** *** assignment_complete *)

Fixpoint assignment_complete_loop (vars : list Var) (a : Assignment) : bool :=
  match vars with
  | [] => true
  | v :: vars' =>
      if negb (truthy (assignment_get a v)) then false
      else assignment_complete_loop vars' a
  end.

Definition assignment_complete (a : Assignment) : bool :=
  assignment_complete_loop (variables cw) a.

(** *** consistent *)

(** First loop: [false] stands for [return False], [true] for reaching
    the end of the loop. *)
Fixpoint consistent_lengths (keys : list Var) (a : Assignment) : outcome bool :=
  match keys with
  | [] => Return true
  | v :: keys' =>
      w <- dict_getitem a v ;;
      if negb (Nat.eqb (var_length v) (String.length w)) then Return false
      else consistent_lengths keys' a
  end.

(** Inner loop of the second pass, for a fixed [i]. *)
Fixpoint consistent_pairs_with (vi : Var) (keys : list Var) (a : Assignment)
  : outcome bool :=
  match keys with
  | [] => Return true
  | vj :: keys' =>
      if negb (Var_eqb vi vj) then
        match overlaps cw vi vj with
        | None => consistent_pairs_with vi keys' a
        | Some ov =>
            wi <- dict_getitem a vi ;;
            ci <- str_index wi (fst ov) ;;
            wj <- dict_getitem a vj ;;
            cj <- str_index wj (snd ov) ;;
            if negb (Ascii.eqb ci cj) then Return false
            else
              wi' <- dict_getitem a vi ;;
              wj' <- dict_getitem a vj ;;
              if String.eqb wi' wj' then Return false
              else consistent_pairs_with vi keys' a
        end
      else consistent_pairs_with vi keys' a
  end.

Fixpoint consistent_pairs (keys_i : list Var) (a : Assignment) : outcome bool :=
  match keys_i with
  | [] => Return true
  | vi :: keys' =>
      ok <- consistent_pairs_with vi (dict_keys a) a ;;
      if ok then consistent_pairs keys' a else Return false
  end.

Definition consistent (a : Assignment) : outcome bool :=
  ok <- consistent_lengths (dict_keys a) a ;;
  if ok then consistent_pairs (dict_keys a) a else Return false.

(** *** Ordering heuristics *)

(** [sorted(l, key=...)] and [list.sort(key=...)]: stable. *)
Fixpoint insert_by {A : Type} (key : A -> nat) (x : A) (l : list A) : list A :=
  match l with
  | [] => [x]
  | y :: l' =>
      if Nat.leb (key x) (key y) then x :: y :: l'
      else y :: insert_by key x l'
  end.

Definition sorted_by {A : Type} (key : A -> nat) (l : list A) : list A :=
  fold_right (insert_by key) [] l.

(** [max(l, key=...)]: the first of the maximal items. *)
Fixpoint max_by {A : Type} (key : A -> nat) (best : A) (l : list A) : A :=
  match l with
  | [] => best
  | x :: l' => max_by key (if Nat.ltb (key best) (key x) then x else best) l'
  end.

Definition py_max {A : Type} (key : A -> nat) (l : list A) : outcome A :=
  match l with
  | [] => Raise ValueError
  | x :: l' => Return (max_by key x l')
  end.

(** [for j in self.domains[i]: ...] of [rules_out_values] *)
Fixpoint rules_out_in (var vi : Var) (word : string) (di : list string)
         (count : nat) : outcome nat :=
  match di with
  | [] => Return count
  | wj :: di' =>
      if String.eqb wj word then rules_out_in var vi word di' (S count)
      else
        match overlaps cw vi var with
        | None => rules_out_in var vi word di' count
        | Some ov =>
            c <- str_index word (snd ov) ;;
            cj <- str_index wj (fst ov) ;;
            if negb (Ascii.eqb c cj) then rules_out_in var vi word di' (S count)
            else rules_out_in var vi word di' count
        end
  end.

Fixpoint rules_out_loop (d : Domains) (var : Var) (word : string)
         (nbrs : list Var) (a : Assignment) (count : nat) : outcome nat :=
  match nbrs with
  | [] => Return count
  | vi :: nbrs' =>
      if negb (truthy (assignment_get a vi)) then
        di <- dict_getitem d vi ;;
        count' <- rules_out_in var vi word di count ;;
        rules_out_loop d var word nbrs' a count'
      else rules_out_loop d var word nbrs' a count
  end.

Definition rules_out_values (d : Domains) (var : Var) (word : string)
           (nbrs : list Var) (a : Assignment) : outcome nat :=
  rules_out_loop d var word nbrs a 0.

Fixpoint rules_out_list (d : Domains) (var : Var) (dv : list string)
         (a : Assignment) : outcome (list (string * nat)) :=
  match dv with
  | [] => Return []
  | w :: dv' =>
      n <- rules_out_values d var w (neighbors cw var) a ;;
      rest <- rules_out_list d var dv' a ;;
      Return ((w, n) :: rest)
  end.

Definition order_domain_values (d : Domains) (var : Var) (a : Assignment)
  : outcome (list string) :=
  dv <- dict_getitem d var ;;
  rules_out <- rules_out_list d var dv a ;;
  Return (map fst (sorted_by snd rules_out)).

(** An entry of [unassigned_variables]: slot, degree, domain size. *)
Definition candidate := (Var * nat * nat)%type.
Definition cand_var (c : candidate) : Var := fst (fst c).
Definition cand_degree (c : candidate) : nat := snd (fst c).
Definition cand_size (c : candidate) : nat := snd c.

Fixpoint unassigned_candidates (d : Domains) (vars : list Var) (a : Assignment)
  : outcome (list candidate) :=
  match vars with
  | [] => Return []
  | v :: vars' =>
      if negb (truthy (assignment_get a v)) then
        dv <- dict_getitem d v ;;
        rest <- unassigned_candidates d vars' a ;;
        Return ((v, List.length (neighbors cw v), List.length dv) :: rest)
      else unassigned_candidates d vars' a
  end.

(** The loop that keeps the leading items whose domain size is that of
    the first one. *)
Fixpoint smallest_prefix (size0 : nat) (l : list candidate) : list candidate :=
  match l with
  | [] => []
  | c :: l' =>
      if negb (Nat.eqb (cand_size c) size0) then []
      else c :: smallest_prefix size0 l'
  end.

Definition select_unassigned_variable (d : Domains) (a : Assignment)
  : outcome Var :=
  cands <- unassigned_candidates d (variables cw) a ;;
  let sorted := sorted_by cand_size cands in
  let unassigned :=
    match sorted with
    | [] => []
    | c0 :: _ => smallest_prefix (cand_size c0) sorted
    end in
  best <- py_max cand_degree unassigned ;;
  Return (cand_var best).

(** *** backtrack *)

(** The assignment is one dictionary shared by all the recursive calls:
    a call returns its result together with the dictionary as it leaves
    it. *)
Definition search_result := (option Assignment * Assignment)%type.

(** [for i in self.order_domain_values(start, assignment): ...], with the
    recursive call [self.backtrack] as [recurse]. *)
Fixpoint backtrack_values (recurse : Assignment -> outcome search_result)
         (start : Var) (vals : list string) (a : Assignment)
  : outcome search_result :=
  match vals with
  | [] => Return (None, a)
  | w :: vals' =>
      let a1 := dict_setitem a start w in
      ok <- consistent a1 ;;
      if ok then
        '(result, a2) <- recurse a1 ;;
        match result with
        | Some r => Return (Some r, a2)
        | None =>
            a3 <- dict_delitem a2 start ;;
            backtrack_values recurse start vals' a3
        end
      else
        a3 <- dict_delitem a1 start ;;
        backtrack_values recurse start vals' a3
  end.

Fixpoint backtrack (fuel : nat) (d : Domains) (a : Assignment)
  : outcome search_result :=
  match fuel with
  | 0 => Timeout
  | S fuel' =>
      if assignment_complete a then Return (Some a, a)
      else
        start <- select_unassigned_variable d a ;;
        vals <- order_domain_values d start a ;;
        backtrack_values (backtrack fuel' d) start vals a
  end.

(** *** solve *)

(** [self.enforce_node_consistency(); self.ac3();
    return self.backtrack(dict())]: the value of [self.ac3()] is
    dropped. *)
Definition solve_with (ac3_method : Domains -> outcome (bool * Domains))
           (fuel : nat) (d : Domains) : outcome (option Assignment) :=
  d1 <- enforce_node_consistency d ;;
  '(_, d2) <- ac3_method d1 ;;
  '(result, _) <- backtrack fuel d2 [] ;;
  Return result.

Definition solve (fuel : nat) (d : Domains) : outcome (option Assignment) :=
  solve_with (ac3 fuel None) fuel d.

End Creator.

(** ** letter_grid *)

(** [l[n] = x] on a list, for a non-negative index. *)
Fixpoint list_setitem {A : Type} (l : list A) (n : nat) (x : A)
  : outcome (list A) :=
  match l, n with
  | [], _ => Raise IndexError
  | _ :: l', 0 => Return (x :: l')
  | y :: l', S n' => l'' <- list_setitem l' n' x ;; Return (y :: l'')
  end.

(** [l[n]] *)
Definition list_getitem {A : Type} (l : list A) (n : nat) : outcome A :=
  match nth_error l n with
  | Some x => Return x
  | None => Raise IndexError
  end.

(** The 2D array of letters: a list of rows, [None] for a cell without a
    letter. *)
Definition grid := list (list (option ascii)).

(** [[[None for _ in range(width)] for _ in range(height)]] *)
Definition blank_grid (height width : nat) : grid :=
  repeat (repeat None width) height.

(** [letters[i][j] = c]: the row is looked up, then changed in place. *)
Definition grid_setitem (g : grid) (i j : nat) (c : ascii) : outcome grid :=
  row <- list_getitem g i ;;
  row' <- list_setitem row j (Some c) ;;
  list_setitem g i row'.

(** [i = variable.i + (k if direction == Variable.DOWN else 0)] *)
Definition cell_row (v : Var) (k : nat) : nat :=
  var_i v + match var_direction v with DOWN => k | ACROSS => 0 end.

(** [j = variable.j + (k if direction == Variable.ACROSS else 0)] *)
Definition cell_col (v : Var) (k : nat) : nat :=
  var_j v + match var_direction v with ACROSS => k | DOWN => 0 end.

(** [for k in range(len(word)): ...], [ks] the values of [k] to come. *)
Fixpoint write_letters (v : Var) (word : string) (ks : list nat) (g : grid)
  : outcome grid :=
  match ks with
  | [] => Return g
  | k :: ks' =>
      c <- str_index word k ;;
      g' <- grid_setitem g (cell_row v k) (cell_col v k) c ;;
      write_letters v word ks' g'
  end.

(** [for variable, word in assignment.items(): ...] *)
Fixpoint letter_grid_loop (items : list (Var * string)) (g : grid)
  : outcome grid :=
  match items with
  | [] => Return g
  | (v, word) :: items' =>
      g' <- write_letters v word (seq 0 (String.length word)) g ;;
      letter_grid_loop items' g'
  end.

(** [letter_grid], for a grid model of the given height and width. *)
Definition letter_grid (height width : nat) (a : Assignment) : outcome grid :=
  letter_grid_loop a (blank_grid height width).

(** What the cell in row [r] and column [c] holds. *)
Definition grid_cell (g : grid) (r c : nat) : option ascii :=
  match nth_error g r with
  | Some row =>
      match nth_error row c with
      | Some x => x
      | None => None
      end
  | None => None
  end.

(** A grid of [height] rows of [width] cells. *)
Definition grid_shape (height width : nat) (g : grid) : Prop :=
  List.length g = height /\ Forall (fun row => List.length row = width) g.

(** What the cell in row [r] and column [c] holds after the letter of index
    [k] has been written, [acc] being what it held before. *)
Definition write_step (v : Var) (word : string) (r c : nat)
           (acc : option ascii) (k : nat) : option ascii :=
  if Nat.eqb r (cell_row v k) && Nat.eqb c (cell_col v k)
  then String.get k word else acc.

(** The letter that the word [word] in the slot [v] has on the cell in row
    [r] and column [c], if the word reaches that cell. *)
Definition letter_of (v : Var) (word : string) (r c : nat) : option ascii :=
  match var_direction v with
  | ACROSS =>
      if Nat.eqb r (var_i v) && Nat.leb (var_j v) c
      then String.get (c - var_j v) word else None
  | DOWN =>
      if Nat.eqb c (var_j v) && Nat.leb (var_i v) r
      then String.get (r - var_i v) word else None
  end.

(** The letter of the last entry of the assignment that reaches the cell. *)
Definition letter_at (a : Assignment) (r c : nat) : option ascii :=
  fold_left (fun acc p =>
               match letter_of (fst p) (snd p) r c with
               | Some ch => Some ch
               | None => acc
               end)
            a None.

(** Every cell of the word lies inside a grid of the given size. *)
Definition word_fits (height width : nat) (v : Var) (word : string) : Prop :=
  forall k, k < String.length word ->
            cell_row v k < height /\ cell_col v k < width.

(** ** The notions of the specification *)

Section SpecNotions.
Context (cw : Crossword).

(** The test of node consistency on one word. *)
Definition fits (v : Var) (w : string) : bool :=
  Nat.eqb (String.length w) (var_length v).

(** Every slot of the grid has an entry. *)
Definition complete (a : Assignment) : Prop :=
  forall v, In v (variables cw) -> dict_lookup v a <> None.

Definition lengths_match (a : Assignment) : Prop :=
  forall v w, dict_lookup v a = Some w -> String.length w = var_length v.

Definition overlaps_agree (a : Assignment) : Prop :=
  forall x y wx wy i j,
    dict_lookup x a = Some wx -> dict_lookup y a = Some wy ->
    overlaps cw x y = Some (i, j) ->
    String.get i wx = String.get j wy.

Definition words_distinct (a : Assignment) : Prop :=
  forall x y wx wy,
    x <> y -> dict_lookup x a = Some wx -> dict_lookup y a = Some wy ->
    wx <> wy.

(** What [consistent] tests on two assigned slots: only when they are
    distinct and have an overlap, that the two letters exist and agree and
    that the two words differ. *)
Definition crossing_pairs_agree (a : Assignment) : Prop :=
  forall x y wx wy i j,
    x <> y -> dict_lookup x a = Some wx -> dict_lookup y a = Some wy ->
    overlaps cw x y = Some (i, j) ->
    (exists c, String.get i wx = Some c /\ String.get j wy = Some c) /\
    wx <> wy.

(** Consistency of an assignment as section 3 of the specification
    defines it. *)
Definition spec_consistent (a : Assignment) : Prop :=
  lengths_match a /\ overlaps_agree a /\ words_distinct a.

(** The words of the assignment come from the vocabulary. *)
Definition from_vocabulary (a : Assignment) : Prop :=
  forall v w, dict_lookup v a = Some w -> In w (words cw).

(** [w], a candidate of [x], has a compatible candidate of [y]. *)
Definition supported (d : Domains) (y : Var) (ov : nat * nat) (w : string)
  : Prop :=
  exists dy v, dict_lookup y d = Some dy /\ In v dy /\
               String.get (fst ov) w = String.get (snd ov) v.

Definition arc_consistent (d : Domains) : Prop :=
  forall x y ov dx w,
    overlaps cw x y = Some ov -> dict_lookup x d = Some dx -> In w dx ->
    supported d y ov w.

(** An assignment that passes the two tests of the code. *)
Definition checked (r : Assignment) : Prop :=
  assignment_complete cw r = true /\ consistent cw r = Return true.
End SpecNotions.

(** [s.remove(w)] for each [w] of [lst] in turn, on the set alone. *)
Fixpoint remove_each (lst : list string) (s : pyset) : outcome pyset :=
  match lst with
  | [] => Return s
  | w :: lst' => s' <- set_remove w s ;; remove_each lst' s'
  end.

(** ** Example grids *)

Definition slotA : Var := mkVar 0 0 ACROSS 3.
Definition slotB : Var := mkVar 2 0 ACROSS 3.
Definition slotD : Var := mkVar 0 1 DOWN 3.

(** A single slot. *)
Definition single_cw : Crossword :=
  mkCrossword [slotA] ["CAT"] (fun _ _ => None).

(** Two slots of length 3 in rows 0 and 2: they do not cross. *)
Definition parallel_cw : Crossword :=
  mkCrossword [slotA; slotB] ["CAT"] (fun _ _ => None).

(** [slotA] and a slot going down from row 0, column 1: the second cell of
    the first is the first cell of the second. *)
Definition crossing_overlaps (down : Var) (x y : Var) : option (nat * nat) :=
  if Var_eqb x slotA && Var_eqb y down then Some (1, 0)
  else if Var_eqb x down && Var_eqb y slotA then Some (0, 1)
  else None.

Definition crossing_cw : Crossword :=
  mkCrossword [slotA; slotD] ["CAT"; "DOG"] (crossing_overlaps slotD).



(** [__init__] with the iteration order of every copy left open: [copy v]
    is [self.crossword.words.copy()] as made for the slot [v], the words
    of the vocabulary in some order.  [init_domains cw] is the case where
    every copy iterates like the vocabulary itself. *)
Definition init_domains_copying (cw : Crossword) (copy : Var -> pyset)
  : Domains :=
  map (fun v => (v, copy v)) (variables cw).

(** The assignment that gives both slots of [parallel_cw] the one word. *)
Definition repeated_assignment : Assignment :=
  [(slotA, "CAT"); (slotB, "CAT")].

(** An entry for the slot of [single_cw], holding the empty string. *)
Definition blank_assignment : Assignment := [(slotA, "")].

(** ** Well-formed grids, domain stores and assignments *)

Section WellFormed.
Context (cw : Crossword).

(** A slot has at least one cell. *)
Definition slots_positive : Prop :=
  forall v, In v (variables cw) -> 0 < var_length v.

(** The indices of an overlap are indices into the two slots. *)
Definition overlaps_in_range : Prop :=
  forall x y i j,
    overlaps cw x y = Some (i, j) -> i < var_length x /\ j < var_length y.

(** Every slot of the grid has a domain. *)
Definition domains_cover (d : Domains) : Prop :=
  forall v, In v (variables cw) -> dict_lookup v d <> None.

(** Node consistency: the candidates of a slot have its length. *)
Definition domains_fit (d : Domains) : Prop :=
  forall v dv w,
    dict_lookup v d = Some dv -> In w dv -> String.length w = var_length v.

(** No entry of the assignment holds the empty string. *)
Definition nonblank (a : Assignment) : Prop :=
  forall v, dict_lookup v a <> Some "".

(** [r] has every entry of [a]. *)
Definition extends (a r : Assignment) : Prop :=
  forall v w, dict_lookup v a = Some w -> dict_lookup v r = Some w.

(** The words [r] gives to the slots of the grid are candidates of [d]. *)
Definition from_domains (d : Domains) (r : Assignment) : Prop :=
  forall v w,
    In v (variables cw) -> dict_lookup v r = Some w ->
    exists dv, dict_lookup v d = Some dv /\ In w dv.

(** [not assignment.get(v, 0)] *)
Definition unassigned (a : Assignment) (v : Var) : bool :=
  negb (truthy (assignment_get a v)).

Definition count_unassigned (a : Assignment) : nat :=
  List.length (filter (unassigned a) (variables cw)).

(** [len(self.domains[v])], 0 for a slot without a domain. *)
Definition domain_size (d : Domains) (v : Var) : nat :=
  match dict_lookup v d with
  | Some dv => List.length dv
  | None => 0
  end.
End WellFormed.

(** The order of a list sorted by [key]. *)
Definition key_le {A : Type} (key : A -> nat) (x y : A) : Prop :=
  key x <= key y.

(** The tuple [select_unassigned_variable] builds for a slot. *)
Definition candidate_of (cw : Crossword) (d : Domains) (v : Var) : candidate :=
  (v, List.length (neighbors cw v), domain_size d v).

(** Whether the candidate [wj] of the neighbour [u] counts as ruled out by
    giving [word] to [var]: it is the same word, or the two slots have an
    overlap and the letters there differ. *)
Definition ruled_out (cw : Crossword) (var : Var) (word : string) (u : Var)
           (wj : string) : bool :=
  String.eqb wj word ||
  match overlaps cw u var with
  | Some ov =>
      match String.get (snd ov) word, String.get (fst ov) wj with
      | Some c, Some cj => negb (Ascii.eqb c cj)
      | _, _ => false
      end
  | None => false
  end.

(** The candidates of the neighbours without an entry that [word] rules
    out, counted neighbour by neighbour. *)
Definition ruled_out_count (cw : Crossword) (d : Domains) (var : Var)
           (word : string) (nbrs : list Var) (a : Assignment) : nat :=
  list_sum
    (map (fun u =>
            if unassigned a u then
              match dict_lookup u d with
              | Some du => List.length (filter (ruled_out cw var word u) du)
              | None => 0
              end
            else 0)
         nbrs).

(** Every entry of [a] gives a slot of the grid a candidate of its
    domain in [d]. *)
Definition drawn_from (cw : Crossword) (d : Domains) (a : Assignment) : Prop :=
  forall v w,
    dict_lookup v a = Some w ->
    In v (variables cw) /\ exists dv, dict_lookup v d = Some dv /\ In w dv.

(** The same for every pair the dictionary holds. *)
Definition entries_drawn (cw : Crossword) (d : Domains) (a : Assignment)
  : Prop :=
  Forall (fun p => In (fst p) (variables cw) /\
                   exists dv, dict_lookup (fst p) d = Some dv /\ In (snd p) dv)
         a.

(** * Properties *)

(** ** Equality of slots, dictionaries *)

Lemma Direction_eqb_eq (a b : Direction) : Direction_eqb a b = true <-> a = b.
Proof. destruct a, b; simpl; split; congruence. Qed.

Lemma Var_eqb_eq (x y : Var) : Var_eqb x y = true <-> x = y.
Proof.
  destruct x as [xi xj xd xl], y as [yi yj yd yl]; unfold Var_eqb; simpl.
  rewrite !andb_true_iff, !Nat.eqb_eq, Direction_eqb_eq.
  split.
  - intros [[[-> ->] ->] ->]; reflexivity.
  - intros H; injection H as -> -> -> ->; auto.
Qed.

Lemma Var_eqb_refl (x : Var) : Var_eqb x x = true.
Proof. apply Var_eqb_eq; reflexivity. Qed.

Lemma Var_eqb_neq (x y : Var) : Var_eqb x y = false <-> x <> y.
Proof.
  rewrite <- Var_eqb_eq. destruct (Var_eqb x y); split; congruence.
Qed.

Lemma Var_eqb_sym (x y : Var) : Var_eqb x y = Var_eqb y x.
Proof.
  destruct (Var_eqb y x) eqn:E.
  - apply Var_eqb_eq in E; subst; apply Var_eqb_refl.
  - apply Var_eqb_neq in E; apply Var_eqb_neq; congruence.
Qed.

Section DictFacts.
Context {V : Type}.
Implicit Types (d : dict V) (k : Var) (v : V).

Lemma dict_lookup_setitem_same d k v :
  dict_lookup k (dict_setitem d k v) = Some v.
Proof.
  induction d as [|[k' v'] d IH]; simpl.
  - now rewrite Var_eqb_refl.
  - destruct (Var_eqb k k') eqn:E; simpl; rewrite E; auto.
Qed.

Lemma dict_lookup_setitem_other d k k' v :
  k <> k' -> dict_lookup k' (dict_setitem d k v) = dict_lookup k' d.
Proof.
  intros Hne; induction d as [|[k0 v0] d IH]; simpl.
  - assert (Var_eqb k' k = false) as -> by (apply Var_eqb_neq; congruence).
    reflexivity.
  - destruct (Var_eqb k k0) eqn:E; simpl.
    + apply Var_eqb_eq in E; subst k0.
      assert (Var_eqb k' k = false) as -> by (apply Var_eqb_neq; congruence).
      reflexivity.
    + now rewrite IH.
Qed.

Lemma dict_setitem_lookup d k v :
  dict_lookup k d = Some v -> dict_setitem d k v = d.
Proof.
  induction d as [|[k0 v0] d IH]; simpl; [discriminate|].
  destruct (Var_eqb k k0) eqn:E.
  - now intros [= ->].
  - intros H; now rewrite IH.
Qed.

Lemma dict_setitem_twice d k v v' :
  dict_setitem (dict_setitem d k v) k v' = dict_setitem d k v'.
Proof.
  induction d as [|[k0 v0] d IH]; simpl.
  - now rewrite Var_eqb_refl.
  - destruct (Var_eqb k k0) eqn:E; simpl; rewrite E; [reflexivity|].
    now rewrite IH.
Qed.

Lemma dict_keys_setitem d k v :
  dict_lookup k d <> None -> dict_keys (dict_setitem d k v) = dict_keys d.
Proof.
  unfold dict_keys.
  induction d as [|[k0 v0] d IH]; simpl; [congruence|].
  destruct (Var_eqb k k0) eqn:E; simpl; [reflexivity|].
  intros H; now rewrite IH.
Qed.

Lemma dict_lookup_keys d k :
  dict_lookup k d <> None <-> In k (dict_keys d).
Proof.
  unfold dict_keys.
  induction d as [|[k0 v0] d IH]; simpl; [tauto|].
  destruct (Var_eqb k k0) eqn:E.
  - apply Var_eqb_eq in E; subst. split; [auto | congruence].
  - apply Var_eqb_neq in E. rewrite IH. split; [auto | intros [?|?]; congruence].
Qed.
End DictFacts.

(** ** Node consistency *)

Lemma set_mem_In (w : string) (s : pyset) : set_mem w s = true <-> In w s.
Proof.
  induction s as [|w' s IH]; simpl; [split; [discriminate | tauto]|].
  rewrite orb_true_iff, IH, String.eqb_eq. split; intros [H|H]; auto.
Qed.

(** Removing, one after the other, the words of the wrong length leaves the
    words of the right length, in their order. *)
Lemma remove_each_wrong_length (v : Var) (s pre : pyset) :
  (forall w, In w pre -> fits v w = true) ->
  remove_each (wrong_length v s) (pre ++ s) = Return (pre ++ filter (fits v) s).
Proof.
  revert pre; induction s as [|a s IH]; intros pre Hpre; simpl; [reflexivity|].
  unfold fits at 2. fold (fits v a).
  destruct (fits v a) eqn:Ea; simpl.
  - specialize (IH (pre ++ [a])).
    rewrite <- !app_assoc in IH; simpl in IH. apply IH.
    intros w [Hw|[<-|[]]]%in_app_or; auto.
  - unfold set_remove.
    assert (set_mem a (pre ++ a :: s) = true) as ->
        by (apply set_mem_In, in_or_app; right; left; reflexivity).
    simpl.
    assert (set_discard a (pre ++ a :: s) = pre ++ s) as ->.
    { clear IH. induction pre as [|b pre IHp]; simpl.
      - now rewrite String.eqb_refl.
      - destruct (String.eqb a b) eqn:Eab.
        + apply String.eqb_eq in Eab; subst b.
          rewrite Hpre in Ea by (left; reflexivity). discriminate.
        + rewrite IHp; [reflexivity|]. intros w Hw; apply Hpre; now right. }
    now apply IH.
Qed.

Lemma remove_words_remove_each (d : Domains) (v : Var) (lst : list string)
      (s : pyset) :
  dict_lookup v d = Some s ->
  remove_words d v lst = (s' <- remove_each lst s ;; Return (dict_setitem d v s')).
Proof.
  revert d s; induction lst as [|w lst IH]; intros d s Hs; simpl.
  - now rewrite dict_setitem_lookup.
  - unfold dict_getitem; rewrite Hs; simpl.
    destruct (set_remove w s) as [s1| |]; simpl; try reflexivity.
    rewrite (IH _ s1) by apply dict_lookup_setitem_same.
    destruct (remove_each lst s1); simpl; try reflexivity.
    now rewrite dict_setitem_twice.
Qed.

Lemma filter_fits_idem (v : Var) (s : pyset) :
  filter (fits v) (filter (fits v) s) = filter (fits v) s.
Proof.
  induction s as [|a s IH]; simpl; [reflexivity|].
  destruct (fits v a) eqn:E; simpl; rewrite ?E, IH; reflexivity.
Qed.

Lemma node_consistency_loop_spec (keys : list Var) (d : Domains) :
  (forall k, In k keys -> dict_lookup k d <> None) ->
  exists d',
    node_consistency_loop keys d = Return d' /\
    dict_keys d' = dict_keys d /\
    forall v, dict_lookup v d' =
              if existsb (Var_eqb v) keys
              then option_map (filter (fits v)) (dict_lookup v d)
              else dict_lookup v d.
Proof.
  revert d; induction keys as [|k keys IH]; intros d Hk; simpl.
  - exists d; auto.
  - destruct (dict_lookup k d) as [s|] eqn:Es;
      [|exfalso; apply (Hk k); [left; reflexivity | exact Es]].
    unfold dict_getitem; rewrite Es; simpl.
    rewrite (remove_words_remove_each _ _ _ s Es).
    pose proof (remove_each_wrong_length k s [] (fun w (H : In w []) => match H with end)) as Hrm.
    simpl in Hrm; rewrite Hrm; simpl. clear Hrm.
    set (d1 := dict_setitem d k (filter (fits k) s)).
    assert (Hkeys : dict_keys d1 = dict_keys d)
      by (apply dict_keys_setitem; congruence).
    destruct (IH d1) as (d' & Hrun & Hk' & Hlook).
    { intros k' Hin. apply dict_lookup_keys. rewrite Hkeys.
      apply dict_lookup_keys. apply Hk; right; exact Hin. }
    exists d'; split; [exact Hrun|]; split; [congruence|].
    intros v. rewrite Hlook.
    destruct (Var_eqb v k) eqn:Evk; simpl.
    + apply Var_eqb_eq in Evk; subst v.
      unfold d1; rewrite dict_lookup_setitem_same, Es; simpl.
      destruct (existsb (Var_eqb k) keys); simpl; [|reflexivity].
      now rewrite filter_fits_idem.
    + apply Var_eqb_neq in Evk.
      unfold d1; rewrite dict_lookup_setitem_other by congruence.
      reflexivity.
Qed.

Lemma enforce_node_consistency_spec (d : Domains) :
  exists d',
    enforce_node_consistency d = Return d' /\
    dict_keys d' = dict_keys d /\
    forall v, dict_lookup v d' = option_map (filter (fits v)) (dict_lookup v d).
Proof.
  destruct (node_consistency_loop_spec (dict_keys d) d) as (d' & Hrun & Hk & Hl).
  { intros k; apply dict_lookup_keys. }
  exists d'; split; [exact Hrun|]; split; [exact Hk|].
  intros v; rewrite Hl.
  destruct (existsb (Var_eqb v) (dict_keys d)) eqn:E; [reflexivity|].
  destruct (dict_lookup v d) eqn:El; [|reflexivity].
  exfalso.
  assert (In v (dict_keys d)) as Hin by (apply dict_lookup_keys; congruence).
  assert (existsb (Var_eqb v) (dict_keys d) = true).
  { apply existsb_exists. exists v; split; [exact Hin | apply Var_eqb_refl]. }
  congruence.
Qed.

(** C9: after [enforce_node_consistency] every slot keeps its entry, every
    word left in a slot's domain has exactly the slot's length, and the
    words taken out are exactly those of another length: a word is in the
    new domain if and only if it was in the old one and has the slot's
    length.  The call always returns. *)
Theorem enforce_node_consistency_sound (d : Domains) :
  exists d',
    enforce_node_consistency d = Return d' /\
    dict_keys d' = dict_keys d /\
    forall v,
      match dict_lookup v d, dict_lookup v d' with
      | Some s, Some s' =>
          forall w, In w s' <-> In w s /\ String.length w = var_length v
      | None, None => True
      | _, _ => False
      end.
Proof.
  destruct (enforce_node_consistency_spec d) as (d' & Hrun & Hk & Hl).
  exists d'; split; [exact Hrun|]; split; [exact Hk|].
  intros v; rewrite Hl.
  destruct (dict_lookup v d) as [s|]; simpl; [|exact I].
  intros w. rewrite filter_In. unfold fits. now rewrite Nat.eqb_eq.
Qed.

(** ** Arc revision *)

Section ReviseFacts.
Context (cw : Crossword).

(** The inner loop either raises or leaves [revised] and the domains as
    they were. *)
Lemma revise_word_returns ov word1 dy revised d r d' :
  revise_word ov word1 dy revised d = Return (r, d') ->
  r = revised /\ d' = d.
Proof.
  induction dy as [|word2 dy IH]; simpl.
  - intros [= <- <-]; auto.
  - destruct (str_index word1 (fst ov)) as [c1| |]; simpl; try discriminate.
    destruct (str_index word2 (snd ov)) as [c2| |]; simpl; try discriminate.
    destruct (Ascii.eqb c1 c2); simpl; [exact IH | discriminate].
Qed.

Lemma revise_loop_returns ov y dx revised d r d' :
  revise_loop ov y dx revised d = Return (r, d') ->
  r = revised /\ d' = d.
Proof.
  revert revised d; induction dx as [|word1 dx IH]; intros revised d; simpl.
  - intros [= <- <-]; auto.
  - destruct (dict_getitem d y) as [dy| |]; simpl; try discriminate.
    destruct (revise_word ov word1 dy revised d) as [[r1 d1]| |] eqn:E;
      simpl; try discriminate.
    apply revise_word_returns in E as [-> ->]. apply IH.
Qed.

(** Whenever [revise] returns, it returns [False] and has changed no
    domain. *)
Lemma revise_returns_unchanged d x y r d' :
  revise cw d x y = Return (r, d') -> r = false /\ d' = d.
Proof.
  unfold revise. destruct (overlaps cw x y) as [ov|].
  - destruct (dict_getitem d x) as [dx| |]; simpl; try discriminate.
    apply revise_loop_returns.
  - intros [= <- <-]; auto.
Qed.

Lemma revise_no_overlap d x y :
  overlaps cw x y = None -> revise cw d x y = Return (false, d).
Proof. unfold revise; now intros ->. Qed.
Lemma revise_word_no_timeout ov word1 dy revised d :
  revise_word ov word1 dy revised d <> Timeout.
Proof.
  induction dy as [|word2 dy IH]; simpl; [discriminate|].
  unfold str_index.
  destruct (String.get (fst ov) word1) as [c1|]; simpl; [|discriminate].
  destruct (String.get (snd ov) word2) as [c2|]; simpl; [|discriminate].
  destruct (Ascii.eqb c1 c2); simpl; [exact IH | discriminate].
Qed.

Lemma revise_word_raises ov word1 dy revised d :
  (exists word2, In word2 dy /\
                 String.get (fst ov) word1 <> String.get (snd ov) word2) ->
  exists e, revise_word ov word1 dy revised d = Raise e.
Proof.
  induction dy as [|w dy IH]; simpl; intros (word2 & Hin & Hne);
    [destruct Hin|].
  unfold str_index.
  destruct (String.get (fst ov) word1) as [c1|] eqn:E1; simpl; [|eauto].
  destruct (String.get (snd ov) w) as [c2|] eqn:E2; simpl; [|eauto].
  destruct (Ascii.eqb c1 c2) eqn:Ec; simpl; [|eauto].
  apply Ascii.eqb_eq in Ec; subst c2.
  apply IH. exists word2; split; [|exact Hne].
  destruct Hin as [<-|Hin]; [congruence | exact Hin].
Qed.

Lemma revise_loop_raises ov y (dx dy : pyset) revised (d : Domains) :
  dict_lookup y d = Some dy ->
  (exists word1 word2,
      In word1 dx /\ In word2 dy /\
      String.get (fst ov) word1 <> String.get (snd ov) word2) ->
  exists e, revise_loop ov y dx revised d = Raise e.
Proof.
  intros Hy. revert revised.
  induction dx as [|w dx IH]; intros revised Hdis; simpl;
    [destruct Hdis as (? & ? & [] & _)|].
  unfold dict_getitem; rewrite Hy; simpl.
  destruct (revise_word ov w dy revised d) as [[r d']| |] eqn:Ew; simpl.
  - destruct (revise_word_returns _ _ _ _ _ _ _ Ew) as [-> ->].
    apply IH.
    destruct Hdis as (word1 & word2 & [<-|H1] & H2 & Hne); [|eauto].
    destruct (revise_word_raises ov w dy revised d) as (e & He); [eauto|].
    congruence.
  - eauto.
  - now apply revise_word_no_timeout in Ew.
Qed.

(** With an overlap, [revise] raises as soon as some candidate of [x] and
    some candidate of [y] differ at the overlap (or are too short for
    it), whether or not the candidate of [x] has a support in [y]. *)
Lemma revise_raises_on_disagreement (d : Domains) x y ov (dx dy : pyset) :
  overlaps cw x y = Some ov ->
  dict_lookup x d = Some dx -> dict_lookup y d = Some dy ->
  (exists word1 word2,
      In word1 dx /\ In word2 dy /\
      String.get (fst ov) word1 <> String.get (snd ov) word2) ->
  exists e, revise cw d x y = Raise e.
Proof.
  intros Hov Hx Hy Hdis. unfold revise, dict_getitem.
  rewrite Hov, Hx; simpl.
  now apply (revise_loop_raises ov y dx dy).
Qed.
End ReviseFacts.

(** C3: on the crossing grid, with both domains the whole vocabulary, no
    word of the down slot starts with the second letter of "CAT", so
    "CAT" has no support; [revise] does not take it out of the across
    slot's domain and return [True]: it raises [AttributeError]. *)
Theorem revise_keeps_unsupported_word :
  overlaps crossing_cw slotA slotD = Some (1, 0) /\
  dict_lookup slotA (init_domains crossing_cw) = Some ["CAT"; "DOG"] /\
  ~ supported (init_domains crossing_cw) slotD (1, 0) "CAT" /\
  revise crossing_cw (init_domains crossing_cw) slotA slotD
  = Raise AttributeError.
Proof.
  repeat split; try reflexivity.
  intros (dy & v & Hdy & Hv & Hget).
  injection Hdy as <-.
  destruct Hv as [<-|[<-|[]]]; discriminate Hget.
Qed.

(** C8: [revise], called on two slots with a defined overlap and the
    node-consistent domains of the crossing grid, does not return a
    boolean: it raises. *)
Theorem revise_raises :
  enforce_node_consistency (init_domains crossing_cw)
  = Return (init_domains crossing_cw) /\
  overlaps crossing_cw slotA slotD <> None /\
  (forall r, revise crossing_cw (init_domains crossing_cw) slotA slotD
             <> Return r) /\
  exists e, revise crossing_cw (init_domains crossing_cw) slotA slotD = Raise e.
Proof.
  split; [reflexivity|]. split; [discriminate|].
  split; [intros r; discriminate|].
  exists AttributeError; reflexivity.
Qed.

(** ** AC-3 *)

(** C5: whatever the grid, the domains and the arcs given (or the default
    seeding), [ac3] returns [True] and the domains it was given: the test
    [not q.empty] is false at once, so the body of the loop, and with it
    [revise], is never run; any other [revise] method gives the same
    result. *)
Theorem ac3_is_a_no_op (cw : Crossword) (fuel : nat)
        (arcs : option (list arc)) (d : Domains) :
  ac3 cw (S fuel) arcs d = Return (true, d) /\
  forall revise_method,
    ac3_with cw revise_method (S fuel) arcs d = Return (true, d).
Proof. split; [|intros revise_method]; reflexivity. Qed.

(** C4: on the crossing grid, with the default seeding, [ac3] returns
    [True] and leaves the domains such that "CAT", a candidate of the
    across slot, has no compatible candidate in the down slot. *)
Theorem ac3_true_without_arc_consistency :
  (forall fuel,
      ac3 crossing_cw (S fuel) None (init_domains crossing_cw)
      = Return (true, init_domains crossing_cw)) /\
  ~ arc_consistent crossing_cw (init_domains crossing_cw).
Proof.
  split; [reflexivity|].
  intros Harc.
  destruct (Harc slotA slotD (1, 0) ["CAT"; "DOG"] "CAT")
    as (dy & v & Hdy & Hv & Hget); try reflexivity; [now left|].
  injection Hdy as <-.
  destruct Hv as [<-|[<-|[]]]; discriminate Hget.
Qed.

(** ** Completeness and consistency of an assignment *)

Lemma truthy_assignment_get (a : Assignment) (v : Var) :
  truthy (assignment_get a v) = true <->
  exists w, dict_lookup v a = Some w /\ w <> "".
Proof.
  unfold assignment_get.
  destruct (dict_lookup v a) as [w|]; simpl.
  - destruct w as [|c w]; simpl.
    + split; [discriminate | intros (w & [= <-] & H); congruence].
    + split; [intros _; eexists; split; [reflexivity | discriminate] | auto].
  - split; [discriminate | intros (w & H & _); discriminate].
Qed.

Lemma assignment_complete_loop_spec (vars : list Var) (a : Assignment) :
  assignment_complete_loop vars a = true <->
  forall v, In v vars -> exists w, dict_lookup v a = Some w /\ w <> "".
Proof.
  induction vars as [|v vars IH]; simpl.
  - split; [intros _ v [] | reflexivity].
  - destruct (truthy (assignment_get a v)) eqn:E; simpl.
    + rewrite IH. apply truthy_assignment_get in E.
      split; [intros H u [<-|Hu]; auto | intros H u Hu; apply H; auto].
    + split; [discriminate|]. intros H.
      assert (truthy (assignment_get a v) = true)
        by (apply truthy_assignment_get, H; auto).
      congruence.
Qed.

(** C10, as the code has it: [assignment_complete] returns [True] if and
    only if every slot of the grid has an entry that holds a non-empty
    word; an entry holding the empty string counts as missing. *)
Theorem assignment_complete_iff (cw : Crossword) (a : Assignment) :
  assignment_complete cw a = true <->
  forall v, In v (variables cw) ->
            exists w, dict_lookup v a = Some w /\ w <> "".
Proof. apply assignment_complete_loop_spec. Qed.

(** C10 fails as stated: the one slot of [single_cw] has an entry in
    [blank_assignment], and [assignment_complete] returns [False]. *)
Lemma assignment_complete_blank_entry :
  complete single_cw blank_assignment /\
  assignment_complete single_cw blank_assignment = false /\
  ~ (assignment_complete single_cw blank_assignment = true <->
     complete single_cw blank_assignment).
Proof.
  assert (Hc : complete single_cw blank_assignment).
  { intros v [<-|[]]; discriminate. }
  split; [exact Hc|]. split; [reflexivity|].
  intros [_ H]. specialize (H Hc). discriminate H.
Qed.

Section ConsistentFacts.
Context (cw : Crossword).

Lemma consistent_lengths_true (keys : list Var) (a : Assignment) :
  consistent_lengths keys a = Return true <->
  forall k, In k keys ->
            exists w, dict_lookup k a = Some w /\
                      String.length w = var_length k.
Proof.
  induction keys as [|k keys IH]; simpl.
  - split; [intros _ k [] | reflexivity].
  - unfold dict_getitem.
    destruct (dict_lookup k a) as [w|] eqn:Ek; simpl.
    + destruct (Nat.eqb (var_length k) (String.length w)) eqn:El; simpl.
      * apply Nat.eqb_eq in El. rewrite IH. split.
        -- intros H u [<-|Hu]; [exists w; auto | auto].
        -- intros H u Hu; apply H; now right.
      * apply Nat.eqb_neq in El. split; [discriminate|].
        intros H. destruct (H k) as (w' & Hw' & Hl); [now left|].
        congruence.
    + split; [discriminate|].
      intros H. destruct (H k) as (w' & Hw' & _); [now left | congruence].
Qed.

Lemma consistent_pairs_with_true (vi : Var) (wi : string) (keys : list Var)
      (a : Assignment) :
  dict_lookup vi a = Some wi ->
  (consistent_pairs_with cw vi keys a = Return true <->
   forall vj ov,
     In vj keys -> vi <> vj -> overlaps cw vi vj = Some ov ->
     exists wj c, dict_lookup vj a = Some wj /\
                  String.get (fst ov) wi = Some c /\
                  String.get (snd ov) wj = Some c /\ wi <> wj).
Proof.
  intros Hwi. induction keys as [|vj keys IH]; simpl.
  - split; [intros _ vj ov [] | reflexivity].
  - assert (Hrest :
      (forall u ov, vj = u \/ In u keys -> vi <> u ->
                    overlaps cw vi u = Some ov ->
                    exists wj c, dict_lookup u a = Some wj /\
                                 String.get (fst ov) wi = Some c /\
                                 String.get (snd ov) wj = Some c /\ wi <> wj)
      -> consistent_pairs_with cw vi keys a = Return true).
    { intros H. apply IH. intros u ov Hu. apply H; now right. }
    destruct (Var_eqb vi vj) eqn:Eij; simpl.
    { apply Var_eqb_eq in Eij; subst vj. split; [|exact Hrest].
      intros H u ov [<-|Hu] Hne; [congruence|]. now apply IH. }
    apply Var_eqb_neq in Eij.
    destruct (overlaps cw vi vj) as [ov|] eqn:Eov.
    2:{ split; [|exact Hrest].
        intros H u ov' [<-|Hu] Hne Hov; [congruence|]. now apply IH. }
    unfold dict_getitem, str_index. rewrite Hwi; simpl.
    assert (Hhead :
      (forall u ov', vj = u \/ In u keys -> vi <> u ->
                     overlaps cw vi u = Some ov' ->
                     exists wj c, dict_lookup u a = Some wj /\
                                  String.get (fst ov') wi = Some c /\
                                  String.get (snd ov') wj = Some c /\
                                  wi <> wj)
      -> exists wj c, dict_lookup vj a = Some wj /\
                      String.get (fst ov) wi = Some c /\
                      String.get (snd ov) wj = Some c /\ wi <> wj).
    { intros H. apply H; auto. }
    destruct (String.get (fst ov) wi) as [ci|] eqn:Eci; simpl.
    2:{ split; [discriminate|]. intros H.
        destruct (Hhead H) as (wj & c & _ & Hc & _). congruence. }
    destruct (dict_lookup vj a) as [wj|] eqn:Ewj; simpl.
    2:{ split; [discriminate|]. intros H.
        destruct (Hhead H) as (wj & c & Hc & _). congruence. }
    destruct (String.get (snd ov) wj) as [cj|] eqn:Ecj; simpl.
    2:{ split; [discriminate|]. intros H.
        destruct (Hhead H) as (wj' & c & Hj & _ & Hc & _). congruence. }
    destruct (Ascii.eqb ci cj) eqn:Ec; simpl.
    2:{ apply Ascii.eqb_neq in Ec. split; [discriminate|]. intros H.
        destruct (Hhead H) as (wj' & c & Hj & Hci & Hcj & _). congruence. }
    apply Ascii.eqb_eq in Ec; subst cj.
    destruct (String.eqb wi wj) eqn:Ew; simpl.
    { apply String.eqb_eq in Ew. split; [discriminate|]. intros H.
      destruct (Hhead H) as (wj' & c & Hj & _ & _ & Hne). congruence. }
    apply String.eqb_neq in Ew. split; [|exact Hrest].
    intros H u ov' [<-|Hu] Hne Hov; [|now apply IH].
    exists wj, ci. rewrite Hov in Eov. injection Eov as ->. auto.
Qed.

Lemma consistent_pairs_true (keys : list Var) (a : Assignment) :
  consistent_pairs cw keys a = Return true <->
  forall vi, In vi keys ->
             consistent_pairs_with cw vi (dict_keys a) a = Return true.
Proof.
  induction keys as [|vi keys IH]; simpl.
  - split; [intros _ vi [] | reflexivity].
  - destruct (consistent_pairs_with cw vi (dict_keys a) a) as [[|]| |] eqn:E;
      simpl.
    + rewrite IH. split.
      * intros H u [<-|Hu]; auto.
      * intros H u Hu; apply H; now right.
    + split; [discriminate|]. intros H.
      specialize (H vi (or_introl eq_refl)). congruence.
    + split; [discriminate|]. intros H.
      specialize (H vi (or_introl eq_refl)). congruence.
    + split; [discriminate|]. intros H.
      specialize (H vi (or_introl eq_refl)). congruence.
Qed.

(** What [consistent] decides: it returns [True] exactly when every
    assigned word has the length of its slot and every two distinct
    assigned slots that have an overlap agree on the shared letter and
    hold different words.  Two slots without an overlap are not compared. *)
Lemma consistent_true_iff (a : Assignment) :
  consistent cw a = Return true <->
  lengths_match a /\ crossing_pairs_agree cw a.
Proof.
  unfold consistent. split.
  - intros H.
    destruct (consistent_lengths (dict_keys a) a) as [[|]| |] eqn:El;
      simpl in H; try discriminate.
    rewrite consistent_lengths_true in El.
    rewrite consistent_pairs_true in H. split.
    + intros v w Hv.
      destruct (El v) as (w' & Hw' & Hlen);
        [apply dict_lookup_keys; congruence | congruence].
    + intros x y wx wy i j Hne Hx Hy Hov.
      assert (Hin : forall k (w : string),
                 dict_lookup k a = Some w -> In k (dict_keys a))
        by (intros k w Hk; apply dict_lookup_keys; congruence).
      specialize (H x (Hin _ _ Hx)).
      rewrite (consistent_pairs_with_true x wx _ _ Hx) in H.
      destruct (H y (i, j) (Hin _ _ Hy) Hne Hov)
        as (wj & c & Hj & Hci & Hcj & Hw).
      simpl in Hci, Hcj. assert (wj = wy) as -> by congruence.
      split; [exists c; auto | exact Hw].
  - intros [Hlen Hpairs].
    assert (Hhas : forall k, In k (dict_keys a) ->
                             exists w, dict_lookup k a = Some w).
    { intros k Hk. apply dict_lookup_keys in Hk.
      destruct (dict_lookup k a) as [w|]; [eauto | congruence]. }
    assert (consistent_lengths (dict_keys a) a = Return true) as ->.
    { apply consistent_lengths_true. intros k Hk.
      destruct (Hhas k Hk) as (w & Hw). exists w; split; [exact Hw | eauto]. }
    simpl. apply consistent_pairs_true. intros vi Hvi.
    destruct (Hhas vi Hvi) as (wi & Hwi).
    apply (consistent_pairs_with_true vi wi _ _ Hwi).
    intros vj [i j] Hvj Hne Hov.
    destruct (Hhas vj Hvj) as (wj & Hwj).
    destruct (Hpairs vi vj wi wj i j Hne Hwi Hwj Hov) as [(c & Hci & Hcj) Hw].
    exists wj, c; auto.
Qed.
End ConsistentFacts.

Lemma repeated_assignment_not_distinct : ~ words_distinct repeated_assignment.
Proof.
  intros H. apply (H slotA slotB "CAT" "CAT"); try reflexivity. discriminate.
Qed.

(** C2: [slotA] and [slotB] do not cross and hold the same word in
    [repeated_assignment]; [consistent] returns [True] although the
    assignment is not consistent as section 3 defines it, two distinct
    slots holding the identical word. *)
Theorem consistent_accepts_repeated_word :
  overlaps parallel_cw slotA slotB = None /\
  consistent parallel_cw repeated_assignment = Return true /\
  ~ words_distinct repeated_assignment /\
  ~ spec_consistent parallel_cw repeated_assignment.
Proof.
  split; [reflexivity|]. split; [reflexivity|].
  split; [exact repeated_assignment_not_distinct|].
  intros (_ & _ & H). exact (repeated_assignment_not_distinct H).
Qed.

(** C1: on the grid of two slots that do not cross, with the single word
    "CAT", [solve] returns an assignment; it is complete, and it is not
    consistent as section 3 defines it: both slots hold "CAT". *)
Theorem solve_returns_repeated_word :
  solve parallel_cw 3 (init_domains parallel_cw)
  = Return (Some repeated_assignment) /\
  complete parallel_cw repeated_assignment /\
  ~ spec_consistent parallel_cw repeated_assignment.
Proof.
  split; [reflexivity|]. split.
  - intros v [<-|[<-|[]]]; discriminate.
  - intros (_ & _ & H). exact (repeated_assignment_not_distinct H).
Qed.

(** C6: the vocabulary of [parallel_cw] has one word and its two slots
    have the same length, so no complete assignment of words of the
    vocabulary is consistent as section 3 defines it; [solve] does not
    return the no-solution value but an assignment. *)
Theorem solve_answers_where_no_solution_exists :
  words parallel_cw = ["CAT"] /\
  var_length slotA = var_length slotB /\
  (forall a, complete parallel_cw a -> from_vocabulary parallel_cw a ->
             ~ spec_consistent parallel_cw a) /\
  (forall fuel, solve parallel_cw (3 + fuel) (init_domains parallel_cw)
                = Return (Some repeated_assignment)).
Proof.
  split; [reflexivity|]. split; [reflexivity|]. split.
  - intros a Hc Hv (_ & _ & Hd).
    destruct (dict_lookup slotA a) as [wa|] eqn:Ea;
      [|apply (Hc slotA); [left; reflexivity | exact Ea]].
    destruct (dict_lookup slotB a) as [wb|] eqn:Eb;
      [|apply (Hc slotB); [right; left; reflexivity | exact Eb]].
    apply (Hd slotA slotB wa wb); [discriminate | assumption | assumption |].
    destruct (Hv _ _ Ea) as [<-|[]]. destruct (Hv _ _ Eb) as [<-|[]].
    reflexivity.
  - intros fuel. reflexivity.
Qed.

(** ** Choice of the next slot *)

Section OrderingFacts.
Context {A : Type} (key : A -> nat).

Lemma insert_by_In (x y : A) (l : list A) :
  In y (insert_by key x l) <-> y = x \/ In y l.
Proof.
  induction l as [|z l IH]; simpl.
  - split; [intros [<-|[]]; auto | intros [->|[]]; auto].
  - destruct (Nat.leb (key x) (key z)); simpl.
    + split; [intros [<-|H]; auto | intros [->|H]; auto].
    + rewrite IH. tauto.
Qed.

Lemma sorted_by_In (y : A) (l : list A) : In y (sorted_by key l) <-> In y l.
Proof.
  induction l as [|x l IH]; simpl; [tauto|].
  rewrite insert_by_In, IH. split; intros [H|H]; auto.
Qed.


Lemma max_by_In (best : A) (l : list A) : In (max_by key best l) (best :: l).
Proof.
  revert best; induction l as [|x l IH]; intros best; simpl; [auto|].
  destruct (IH (if Nat.ltb (key best) (key x) then x else best)) as [H|H];
    [|auto].
  destruct (Nat.ltb (key best) (key x)); rewrite <- H; auto.
Qed.
End OrderingFacts.

Lemma smallest_prefix_In (size0 : nat) (l : list candidate) (c : candidate) :
  In c (smallest_prefix size0 l) -> In c l /\ cand_size c = size0.
Proof.
  induction l as [|c1 l IH]; simpl; [tauto|].
  destruct (Nat.eqb (cand_size c1) size0) eqn:E; simpl; [|tauto].
  apply Nat.eqb_eq in E.
  intros [<-|H]; [auto | destruct (IH H); auto].
Qed.

Section SearchFacts.
Context (cw : Crossword).

Lemma unassigned_candidates_spec (d : Domains) (a : Assignment)
      (vars : list Var) :
  (forall u, In u vars -> dict_lookup u d <> None) ->
  exists cands,
    unassigned_candidates cw d vars a = Return cands /\
    (forall c, In c cands ->
               exists dv, dict_lookup (cand_var c) d = Some dv /\
                          cand_size c = List.length dv) /\
    (forall u dv, In u vars -> truthy (assignment_get a u) = false ->
                  dict_lookup u d = Some dv ->
                  exists c, In c cands /\ cand_size c = List.length dv).
Proof.
  induction vars as [|v vars IH]; intros Hd; simpl.
  - exists []; split; [reflexivity|]. split; [intros c [] | intros u dv []].
  - destruct IH as (cands & Hrun & Hall & Hex);
      [intros u Hu; apply Hd; now right|].
    destruct (truthy (assignment_get a v)) eqn:Et; simpl.
    + exists cands; split; [exact Hrun|]. split; [exact Hall|].
      intros u dv [<-|Hu] Hf Hl; [congruence | eauto].
    + destruct (dict_lookup v d) as [dv|] eqn:Ev;
        [|exfalso; apply (Hd v); [now left | exact Ev]].
      unfold dict_getitem; rewrite Ev, Hrun; simpl.
      eexists; split; [reflexivity|]. split.
      * intros c [<-|Hc]; [exists dv; auto | auto].
      * intros u du [<-|Hu] Hf Hl.
        -- eexists; split; [left; reflexivity|].
           unfold cand_size; simpl. congruence.
        -- destruct (Hex u du Hu Hf Hl) as (c & Hc & Hs).
           exists c; split; [now right | exact Hs].
Qed.


End SearchFacts.

(** ** solve *)




(** ** What the search returns *)

Section SearchSound.
Context (cw : Crossword).

Lemma backtrack_values_sound
      (recurse : Assignment -> outcome search_result) (start : Var) :
  (forall a1 r a', consistent cw a1 = Return true ->
                   recurse a1 = Return (Some r, a') -> r = a' /\ checked cw r) ->
  forall vals a r a',
    backtrack_values cw recurse start vals a = Return (Some r, a') ->
    r = a' /\ checked cw r.
Proof.
  intros Hrec vals; induction vals as [|w vals IH]; intros a r a'; simpl;
    [discriminate|].
  destruct (consistent cw (dict_setitem a start w)) as [[|]| |] eqn:Ec;
    simpl; try discriminate.
  - destruct (recurse (dict_setitem a start w)) as [[[r0|] a2]| |] eqn:Er;
      simpl; try discriminate.
    + intros [= <- <-]. exact (Hrec _ _ _ Ec Er).
    + destruct (dict_delitem a2 start) as [a3| |]; simpl; try discriminate.
      apply IH.
  - destruct (dict_delitem (dict_setitem a start w) start) as [a3| |]; simpl;
      try discriminate.
    apply IH.
Qed.

Lemma backtrack_sound (fuel : nat) (d : Domains) :
  forall a r a',
    consistent cw a = Return true ->
    backtrack cw fuel d a = Return (Some r, a') -> r = a' /\ checked cw r.
Proof.
  induction fuel as [|fuel IH]; intros a r a' Hc; simpl; [discriminate|].
  destruct (assignment_complete cw a) eqn:Ea.
  - intros [= <- <-]. split; [reflexivity | split; assumption].
  - destruct (select_unassigned_variable cw d a) as [start| |]; simpl;
      try discriminate.
    destruct (order_domain_values cw d start a) as [vals| |]; simpl;
      try discriminate.
    apply backtrack_values_sound. exact IH.
Qed.

(** Whatever [solve] returns as a solution has a non-empty word for every
    slot, words of the slots' lengths, and, for two distinct slots with an
    overlap, agreeing letters and different words. *)
Lemma solve_with_sound (ac3_method : Domains -> outcome (bool * Domains))
      (fuel : nat) (d : Domains) (r : Assignment) :
  solve_with cw ac3_method fuel d = Return (Some r) ->
  (forall v, In v (variables cw) ->
             exists w, dict_lookup v r = Some w /\ w <> "") /\
  lengths_match r /\ crossing_pairs_agree cw r.
Proof.
  unfold solve_with.
  destruct (enforce_node_consistency d) as [d1| |]; simpl; try discriminate.
  destruct (ac3_method d1) as [[b d2]| |]; simpl; try discriminate.
  destruct (backtrack cw fuel d2 []) as [[[r0|] a']| |] eqn:Eb; simpl;
    try discriminate.
  intros [= ->].
  destruct (backtrack_sound fuel d2 [] r a' eq_refl Eb) as (_ & Hcomp & Hcons).
  split; [now apply assignment_complete_loop_spec|].
  now apply consistent_true_iff.
Qed.
End SearchSound.

(** ** Sorting and maximum *)

Section SortFacts.
Context {A : Type} (key : A -> nat).

Lemma insert_by_perm (x : A) (l : list A) :
  Permutation (insert_by key x l) (x :: l).
Proof.
  induction l as [|y l IH]; simpl; [reflexivity|].
  destruct (Nat.leb (key x) (key y)); [reflexivity|].
  rewrite IH. apply perm_swap.
Qed.

Lemma sorted_by_perm (l : list A) : Permutation (sorted_by key l) l.
Proof.
  induction l as [|x l IH]; simpl; [reflexivity|].
  rewrite insert_by_perm. now constructor.
Qed.

Lemma insert_by_sorted (x : A) (l : list A) :
  StronglySorted (key_le key) l ->
  StronglySorted (key_le key) (insert_by key x l).
Proof.
  induction l as [|y l IH]; simpl; intros Hs.
  - repeat constructor.
  - inversion Hs as [|? ? Hl Hy]; subst.
    destruct (Nat.leb (key x) (key y)) eqn:E.
    + apply Nat.leb_le in E. constructor; [exact Hs|].
      constructor; [exact E|].
      rewrite Forall_forall in *. intros z Hz. specialize (Hy z Hz).
      unfold key_le in *; lia.
    + apply Nat.leb_gt in E. constructor; [now apply IH|].
      rewrite Forall_forall in *. intros z Hz.
      apply insert_by_In in Hz as [->|Hz]; [unfold key_le; lia | auto].
Qed.

Lemma sorted_by_sorted (l : list A) :
  StronglySorted (key_le key) (sorted_by key l).
Proof.
  induction l as [|x l IH]; simpl; [constructor | now apply insert_by_sorted].
Qed.

(** The sort is stable: items with one and the same key keep their order. *)
Lemma sorted_by_same_key (k : nat) (l : list A) :
  (forall x, In x l -> key x = k) -> sorted_by key l = l.
Proof.
  induction l as [|x l IH]; simpl; intros H; [reflexivity|].
  rewrite IH by auto.
  destruct l as [|y l]; simpl; [reflexivity|].
  rewrite (H x) by (now left). rewrite (H y) by (right; now left).
  now rewrite Nat.leb_refl.
Qed.

Lemma max_by_ge_best (best : A) (l : list A) :
  key best <= key (max_by key best l).
Proof.
  revert best; induction l as [|y l IH]; intros best; simpl; [lia|].
  destruct (Nat.ltb (key best) (key y)) eqn:E; [|apply IH].
  apply Nat.ltb_lt in E. specialize (IH y). lia.
Qed.

Lemma max_by_greatest (best : A) (l : list A) (x : A) :
  In x (best :: l) -> key x <= key (max_by key best l).
Proof.
  intros [<-|Hx]; [apply max_by_ge_best|].
  revert best; induction l as [|y l IH]; intros best; simpl; [destruct Hx|].
  destruct Hx as [<-|Hx]; [|now apply IH].
  destruct (Nat.ltb (key best) (key y)) eqn:E.
  - apply max_by_ge_best.
  - apply Nat.ltb_ge in E.
    pose proof (max_by_ge_best best l). lia.
Qed.
End SortFacts.

(** The leading run of the sorted candidates holds every candidate of the
    least size. *)
Lemma smallest_prefix_complete (size0 : nat) (l : list candidate)
      (c : candidate) :
  StronglySorted (key_le cand_size) l ->
  (forall x, In x l -> size0 <= cand_size x) ->
  In c l -> cand_size c = size0 -> In c (smallest_prefix size0 l).
Proof.
  induction l as [|c1 l IH]; simpl; intros Hs Hmin Hin Hc; [exact Hin|].
  inversion Hs as [|? ? Hl H1]; subst.
  destruct (Nat.eqb (cand_size c1) (cand_size c)) eqn:E; simpl.
  - destruct Hin as [->|Hin]; [now left | right].
    apply IH; auto.
  - apply Nat.eqb_neq in E.
    destruct Hin as [->|Hin]; [congruence|].
    rewrite Forall_forall in H1. specialize (H1 c Hin).
    pose proof (Hmin c1 (or_introl eq_refl)).
    unfold key_le in H1. lia.
Qed.


(** ** select_unassigned_variable *)

Section SelectFacts.
Context (cw : Crossword).

Lemma unassigned_candidates_returns (d : Domains) (a : Assignment)
      (vars : list Var) (cands : list candidate) :
  unassigned_candidates cw d vars a = Return cands ->
  cands = map (candidate_of cw d) (filter (unassigned a) vars).
Proof.
  revert cands; induction vars as [|v vars IH]; intros cands; simpl.
  - now intros [= <-].
  - unfold unassigned at 1.
    destruct (truthy (assignment_get a v)); simpl; [exact (IH cands)|].
    unfold dict_getitem, candidate_of at 1, domain_size.
    destruct (dict_lookup v d) as [dv|]; simpl; [|discriminate].
    destruct (unassigned_candidates cw d vars a) as [rest| |]; simpl;
      try discriminate.
    intros [= <-]. now rewrite (IH rest).
Qed.

Lemma assignment_complete_false (a : Assignment) :
  assignment_complete cw a = false ->
  exists v, In v (variables cw) /\ unassigned a v = true.
Proof.
  unfold assignment_complete, unassigned.
  induction (variables cw) as [|v vars IH]; simpl; [discriminate|].
  destruct (truthy (assignment_get a v)) eqn:E; simpl.
  - intros H. destruct (IH H) as (u & Hu & Hf). exists u; auto.
  - intros _. exists v. rewrite E. auto.
Qed.

Lemma assignment_complete_true (a : Assignment) (v : Var) :
  assignment_complete cw a = true -> In v (variables cw) ->
  unassigned a v = false.
Proof.
  unfold assignment_complete, unassigned.
  rewrite assignment_complete_loop_spec. intros H Hv.
  apply H, truthy_assignment_get in Hv. now rewrite Hv.
Qed.

(** The slot chosen, as a candidate of the list the code sorts. *)
Lemma select_unassigned_variable_inv (d : Domains) (a : Assignment)
      (start : Var) :
  select_unassigned_variable cw d a = Return start ->
  let cands := map (candidate_of cw d) (filter (unassigned a) (variables cw)) in
  exists best,
    cand_var best = start /\ In best cands /\
    (forall c, In c cands -> cand_size best <= cand_size c) /\
    (forall c, In c cands -> cand_size c = cand_size best ->
               cand_degree c <= cand_degree best).
Proof.
  unfold select_unassigned_variable.
  destruct (unassigned_candidates cw d (variables cw) a) as [cands| |] eqn:Ec;
    simpl; try discriminate.
  apply unassigned_candidates_returns in Ec. rewrite <- Ec. clear Ec.
  pose proof (sorted_by_sorted cand_size cands) as Hsorted.
  pose proof (fun c => sorted_by_In cand_size c cands) as Hin.
  destruct (sorted_by cand_size cands) as [|c0 rest] eqn:Es; simpl;
    [discriminate|].
  rewrite Nat.eqb_refl; simpl. intros [= <-].
  set (run := smallest_prefix (cand_size c0) rest).
  assert (Hleast : forall c, In c (c0 :: rest) -> cand_size c0 <= cand_size c).
  { intros c [<-|Hc]; [lia|].
    inversion Hsorted as [|? ? _ H0]; subst.
    rewrite Forall_forall in H0. exact (H0 c Hc). }
  assert (Hbest : In (max_by cand_degree c0 run) (c0 :: rest) /\
                  cand_size (max_by cand_degree c0 run) = cand_size c0).
  { destruct (max_by_In cand_degree c0 run) as [H|H].
    - rewrite <- H. split; [now left | reflexivity].
    - apply smallest_prefix_In in H as [H1 H2]. split; [now right | exact H2]. }
  destruct Hbest as [Hb1 Hb2].
  exists (max_by cand_degree c0 run).
  split; [reflexivity|]. split; [now apply Hin|]. split.
  - intros c Hc. rewrite Hb2. apply Hleast. now apply Hin.
  - intros c Hc Hsize. apply max_by_greatest.
    apply Hin in Hc. destruct Hc as [<-|Hc]; [now left | right].
    inversion Hsorted as [|? ? Hrest H0]; subst.
    apply smallest_prefix_complete; auto; [|congruence].
    intros x Hx. apply Hleast. now right.
Qed.

(** X1: the slot [select_unassigned_variable] returns is a slot of the
    grid without a (non-empty) entry in the assignment; among those slots
    none has a smaller domain, and none with a domain of the same size has
    more neighbours. *)
Theorem select_unassigned_variable_chooses (d : Domains) (a : Assignment)
        (start : Var) :
  select_unassigned_variable cw d a = Return start ->
  In start (variables cw) /\ unassigned a start = true /\
  forall u, In u (variables cw) -> unassigned a u = true ->
            domain_size d start <= domain_size d u /\
            (domain_size d u = domain_size d start ->
             List.length (neighbors cw u) <= List.length (neighbors cw start)).
Proof.
  intros Hsel.
  destruct (select_unassigned_variable_inv d a start Hsel)
    as (best & <- & Hin & Hsize & Hdeg).
  apply in_map_iff in Hin as (v & <- & Hv).
  apply filter_In in Hv as [Hv Hun].
  split; [exact Hv|]. split; [exact Hun|].
  intros u Hu Huna.
  assert (Hc : In (candidate_of cw d u)
                  (map (candidate_of cw d)
                       (filter (unassigned a) (variables cw)))).
  { apply in_map, filter_In; auto. }
  split; [exact (Hsize _ Hc)|].
  intros Heq. apply (Hdeg _ Hc). exact Heq.
Qed.

(** X2: on an assignment that [assignment_complete] accepts,
    [select_unassigned_variable] has no candidate and raises [ValueError]
    ([max] of an empty list). *)
Theorem select_unassigned_variable_none_left (d : Domains) (a : Assignment) :
  assignment_complete cw a = true ->
  select_unassigned_variable cw d a = Raise ValueError.
Proof.
  intros Hc. unfold select_unassigned_variable.
  assert (unassigned_candidates cw d (variables cw) a = Return []) as ->.
  { pose proof (fun v => assignment_complete_true a v Hc) as Hall.
    induction (variables cw) as [|v vars IH]; simpl; [reflexivity|].
    assert (Hv : unassigned a v = false) by (apply Hall; now left).
    unfold unassigned in Hv. rewrite Hv. apply IH.
    intros u Hu. apply Hall. now right. }
  reflexivity.
Qed.

Lemma select_unassigned_variable_returns (d : Domains) (a : Assignment) :
  domains_cover cw d -> assignment_complete cw a = false ->
  exists start, select_unassigned_variable cw d a = Return start.
Proof.
  intros Hd Ha. unfold select_unassigned_variable.
  destruct (unassigned_candidates_spec cw d a (variables cw) Hd)
    as (cands & Hrun & _ & _).
  rewrite Hrun; simpl.
  apply unassigned_candidates_returns in Hrun.
  destruct (assignment_complete_false a Ha) as (v & Hv & Hun).
  assert (Hin : In (candidate_of cw d v) (sorted_by cand_size cands)).
  { apply sorted_by_In. rewrite Hrun. apply in_map, filter_In; auto. }
  destruct (sorted_by cand_size cands) as [|c0 rest]; [destruct Hin|].
  simpl. rewrite Nat.eqb_refl; simpl. eauto.
Qed.
End SelectFacts.

Lemma select_unassigned_variable_chooses_witness :
  In slotA (variables crossing_cw) /\ unassigned [] slotA = true /\
  forall u, In u (variables crossing_cw) -> unassigned [] u = true ->
            domain_size (init_domains crossing_cw) slotA
            <= domain_size (init_domains crossing_cw) u /\
            (domain_size (init_domains crossing_cw) u
             = domain_size (init_domains crossing_cw) slotA ->
             List.length (neighbors crossing_cw u)
             <= List.length (neighbors crossing_cw slotA)).
Proof.
  apply (select_unassigned_variable_chooses crossing_cw
           (init_domains crossing_cw) [] slotA).
  reflexivity.
Defined.

Lemma select_unassigned_variable_none_left_witness :
  select_unassigned_variable parallel_cw (init_domains parallel_cw)
                             repeated_assignment
  = Raise ValueError.
Proof.
  apply (select_unassigned_variable_none_left parallel_cw). reflexivity.
Defined.

(** ** rules_out_values and order_domain_values *)

Lemma string_get_some (w : string) (k : nat) :
  k < String.length w -> exists c, String.get k w = Some c.
Proof.
  revert k; induction w as [|c w IH]; intros k; simpl; [lia|].
  destruct k as [|k]; [eauto|]. intros H. apply IH. lia.
Qed.

Section ValueOrderFacts.
Context (cw : Crossword).

Lemma rules_out_in_count (var vi : Var) (word : string) (di : list string)
      (count n : nat) :
  rules_out_in cw var vi word di count = Return n ->
  n = count + List.length (filter (ruled_out cw var word vi) di).
Proof.
  revert count; induction di as [|wj di IH]; intros count; simpl.
  - intros [= <-]. lia.
  - unfold ruled_out at 1.
    destruct (String.eqb wj word); simpl.
    + intros H. apply IH in H. lia.
    + destruct (overlaps cw vi var) as [ov|]; simpl.
      * unfold str_index.
        destruct (String.get (snd ov) word) as [c|]; simpl; [|discriminate].
        destruct (String.get (fst ov) wj) as [cj|]; simpl; [|discriminate].
        destruct (Ascii.eqb c cj); simpl; intros H; apply IH in H; lia.
      * intros H. apply IH in H. lia.
Qed.

Lemma rules_out_loop_count (d : Domains) (var : Var) (word : string)
      (nbrs : list Var) (a : Assignment) (count n : nat) :
  rules_out_loop cw d var word nbrs a count = Return n ->
  n = count + ruled_out_count cw d var word nbrs a.
Proof.
  unfold ruled_out_count.
  revert count; induction nbrs as [|u nbrs IH]; intros count; simpl.
  - intros [= <-]. lia.
  - unfold unassigned at 1.
    destruct (truthy (assignment_get a u)); simpl.
    + intros H. apply IH in H. lia.
    + unfold dict_getitem.
      destruct (dict_lookup u d) as [du|]; simpl; [|discriminate].
      destruct (rules_out_in cw var u word du count) as [n1| |] eqn:E1;
        simpl; try discriminate.
      apply rules_out_in_count in E1. intros H. apply IH in H. lia.
Qed.

(** X3: when [rules_out_values] returns, the count is the number of
    candidates, over the neighbours given that have no entry in the
    assignment, that are the word itself or differ from it at the
    overlap; neighbours with an entry add nothing. *)
Theorem rules_out_values_counts (d : Domains) (var : Var) (word : string)
        (nbrs : list Var) (a : Assignment) (n : nat) :
  rules_out_values cw d var word nbrs a = Return n ->
  n = ruled_out_count cw d var word nbrs a.
Proof. intros H. now apply rules_out_loop_count in H. Qed.

Lemma rules_out_loop_assigned (d : Domains) (var : Var) (word : string)
      (nbrs : list Var) (a : Assignment) (count : nat) :
  (forall u, In u nbrs -> unassigned a u = false) ->
  rules_out_loop cw d var word nbrs a count = Return count.
Proof.
  induction nbrs as [|u nbrs IH]; simpl; intros H; [reflexivity|].
  assert (Hu : unassigned a u = false) by (apply H; now left).
  unfold unassigned in Hu. rewrite Hu. apply IH. intros v Hv. apply H. now right.
Qed.

Lemma rules_out_list_returns (d : Domains) (var : Var) (dv : list string)
      (a : Assignment) (l : list (string * nat)) :
  rules_out_list cw d var dv a = Return l ->
  map fst l = dv /\
  Forall (fun p => rules_out_values cw d var (fst p) (neighbors cw var) a
                   = Return (snd p)) l.
Proof.
  revert l; induction dv as [|w dv IH]; intros l; simpl.
  - intros [= <-]. split; [reflexivity | constructor].
  - destruct (rules_out_values cw d var w (neighbors cw var) a) as [n| |] eqn:En;
      simpl; try discriminate.
    destruct (rules_out_list cw d var dv a) as [rest| |]; simpl;
      try discriminate.
    intros [= <-]. destruct (IH rest eq_refl) as [Hm Hf].
    split; [simpl; now rewrite Hm | constructor; auto].
Qed.

Lemma sorted_counts (l : list (string * nat)) :
  StronglySorted (key_le snd) l -> StronglySorted le (map snd l).
Proof.
  induction 1 as [|p l Hs IH Hp]; simpl; constructor; [exact IH|].
  rewrite Forall_forall in *. intros n Hn.
  apply in_map_iff in Hn as (q & <- & Hq). exact (Hp q Hq).
Qed.

(** X4: the list [order_domain_values] returns has exactly the candidates
    of the slot (it is a permutation of the domain), in ascending order
    of the counts [rules_out_values] gives them. *)
Theorem order_domain_values_sorted (d : Domains) (var : Var) (a : Assignment)
        (vals : list string) :
  order_domain_values cw d var a = Return vals ->
  exists dv counts,
    dict_lookup var d = Some dv /\ Permutation vals dv /\
    Forall2 (fun w n => rules_out_values cw d var w (neighbors cw var) a
                        = Return n) vals counts /\
    StronglySorted le counts.
Proof.
  unfold order_domain_values, dict_getitem.
  destruct (dict_lookup var d) as [dv|]; simpl; [|discriminate].
  destruct (rules_out_list cw d var dv a) as [l| |] eqn:El; simpl;
    try discriminate.
  intros [= <-].
  apply rules_out_list_returns in El as [Hm Hf].
  exists dv, (map snd (sorted_by snd l)).
  split; [reflexivity|]. split; [|split].
  - rewrite <- Hm. apply Permutation_map, sorted_by_perm.
  - assert (Hs : Forall (fun p => rules_out_values cw d var (fst p)
                                    (neighbors cw var) a = Return (snd p))
                        (sorted_by snd l)).
    { rewrite Forall_forall in *. intros p Hp. apply Hf.
      apply (sorted_by_In snd). exact Hp. }
    induction Hs; simpl; constructor; auto.
  - apply sorted_counts, sorted_by_sorted.
Qed.

(** X5: when every neighbour of the slot has a (non-empty) entry in the
    assignment, and in particular when the slot has no neighbour, no
    candidate rules anything out and [order_domain_values] returns the
    domain in its own order. *)
Theorem order_domain_values_neighbours_assigned (d : Domains) (var : Var)
        (a : Assignment) (dv : pyset) :
  dict_lookup var d = Some dv ->
  (forall u, In u (neighbors cw var) -> unassigned a u = false) ->
  order_domain_values cw d var a = Return dv.
Proof.
  intros Hdv Hn. unfold order_domain_values, dict_getitem.
  rewrite Hdv; simpl.
  assert (rules_out_list cw d var dv a = Return (map (fun w => (w, 0)) dv))
    as ->.
  { clear Hdv. induction dv as [|w dv IH]; simpl; [reflexivity|].
    unfold rules_out_values.
    rewrite rules_out_loop_assigned by exact Hn. simpl.
    now rewrite IH. }
  simpl. rewrite (sorted_by_same_key snd 0).
  - rewrite map_map; simpl. now rewrite map_id.
  - intros p Hp. apply in_map_iff in Hp as (w & <- & _). reflexivity.
Qed.
End ValueOrderFacts.

Lemma rules_out_values_counts_witness :
  2 = ruled_out_count crossing_cw (init_domains crossing_cw) slotA "CAT"
                      (neighbors crossing_cw slotA) [].
Proof.
  apply (rules_out_values_counts crossing_cw (init_domains crossing_cw)
           slotA "CAT" (neighbors crossing_cw slotA) [] 2).
  reflexivity.
Defined.

Lemma order_domain_values_sorted_witness :
  exists dv counts,
    dict_lookup slotA (init_domains crossing_cw) = Some dv /\
    Permutation ["CAT"; "DOG"] dv /\
    Forall2 (fun w n =>
               rules_out_values crossing_cw (init_domains crossing_cw) slotA w
                                (neighbors crossing_cw slotA) []
               = Return n) ["CAT"; "DOG"] counts /\
    StronglySorted le counts.
Proof.
  apply (order_domain_values_sorted crossing_cw (init_domains crossing_cw)
           slotA [] ["CAT"; "DOG"]).
  reflexivity.
Defined.

Lemma order_domain_values_neighbours_assigned_witness :
  order_domain_values crossing_cw (init_domains crossing_cw) slotA
                      [(slotD, "DOG")]
  = Return ["CAT"; "DOG"].
Proof.
  apply (order_domain_values_neighbours_assigned crossing_cw
           (init_domains crossing_cw) slotA [(slotD, "DOG")] ["CAT"; "DOG"]).
  - reflexivity.
  - intros u [<-|[]]. reflexivity.
Defined.

(** ** backtrack *)

Section DictUndo.
Context {V : Type}.

(** Deleting a key just added gives the dictionary back. *)
Lemma dict_delitem_setitem_fresh (a : dict V) (k : Var) (v : V) :
  dict_lookup k a = None -> dict_delitem (dict_setitem a k v) k = Return a.
Proof.
  induction a as [|[k0 v0] a IH]; simpl.
  - intros _. now rewrite Var_eqb_refl.
  - destruct (Var_eqb k k0) eqn:E; [discriminate|]. intros H.
    simpl. rewrite E. now rewrite IH.
Qed.
End DictUndo.

Section BacktrackFacts.
Context (cw : Crossword).

Lemma unassigned_nonblank (a : Assignment) (v : Var) :
  nonblank a -> unassigned a v = true -> dict_lookup v a = None.
Proof.
  intros Hnb. unfold unassigned, assignment_get.
  specialize (Hnb v).
  destruct (dict_lookup v a) as [[|c w]|]; simpl; congruence.
Qed.

Lemma select_unassigned_variable_unassigned (d : Domains) (a : Assignment)
      (start : Var) :
  select_unassigned_variable cw d a = Return start ->
  In start (variables cw) /\ unassigned a start = true.
Proof.
  intros Hsel.
  destruct (select_unassigned_variable_inv cw d a start Hsel)
    as (best & <- & Hin & _).
  apply in_map_iff in Hin as (v & <- & Hv).
  now apply filter_In in Hv.
Qed.

Lemma order_domain_values_In (d : Domains) (var : Var) (a : Assignment)
      (vals : list string) (dv : pyset) (w : string) :
  order_domain_values cw d var a = Return vals ->
  dict_lookup var d = Some dv -> In w dv -> In w vals.
Proof.
  unfold order_domain_values, dict_getitem. intros H Hdv. rewrite Hdv in H.
  simpl in H.
  destruct (rules_out_list cw d var dv a) as [l| |] eqn:El; simpl in H;
    try discriminate.
  injection H as <-.
  apply rules_out_list_returns in El as [Hm _]. rewrite <- Hm.
  intros Hw. apply in_map_iff in Hw as (p & <- & Hp).
  apply in_map. apply (sorted_by_In snd). exact Hp.
Qed.

(** An assignment that passes [consistent] on a grid whose slots have
    cells has no empty word. *)
Lemma consistent_setitem_nonblank (a : Assignment) (start : Var) (w : string) :
  slots_positive cw -> In start (variables cw) -> nonblank a ->
  consistent cw (dict_setitem a start w) = Return true ->
  nonblank (dict_setitem a start w).
Proof.
  intros Hpos Hstart Hnb Hc v Hv.
  apply consistent_true_iff in Hc as [Hlen _].
  destruct (Var_eqb start v) eqn:E.
  - apply Var_eqb_eq in E; subst v.
    specialize (Hlen start "" Hv). specialize (Hpos start Hstart).
    simpl in Hlen. lia.
  - apply Var_eqb_neq in E.
    rewrite dict_lookup_setitem_other in Hv by exact E. exact (Hnb v Hv).
Qed.

Lemma backtrack_values_restores
      (recurse : Assignment -> outcome search_result) (start : Var)
      (a : Assignment) :
  dict_lookup start a = None ->
  (forall w a2, consistent cw (dict_setitem a start w) = Return true ->
                recurse (dict_setitem a start w) = Return (None, a2) ->
                a2 = dict_setitem a start w) ->
  forall vals a',
    backtrack_values cw recurse start vals a = Return (None, a') -> a' = a.
Proof.
  intros Hfresh Hrec vals; induction vals as [|w vals IH]; intros a'; simpl.
  - now intros [= <-].
  - destruct (consistent cw (dict_setitem a start w)) as [[|]| |] eqn:Ec;
      simpl; try discriminate.
    + destruct (recurse (dict_setitem a start w)) as [[[r0|] a2]| |] eqn:Er;
        simpl; try discriminate.
      rewrite (Hrec w a2 Ec Er), dict_delitem_setitem_fresh by exact Hfresh.
      simpl. apply IH.
    + rewrite dict_delitem_setitem_fresh by exact Hfresh. simpl. apply IH.
Qed.

Lemma backtrack_restores_aux (fuel : nat) (d : Domains) :
  slots_positive cw ->
  forall a a', nonblank a ->
               backtrack cw fuel d a = Return (None, a') -> a' = a.
Proof.
  intros Hpos. induction fuel as [|fuel IH]; intros a a' Hnb; simpl;
    [discriminate|].
  destruct (assignment_complete cw a); [discriminate|].
  destruct (select_unassigned_variable cw d a) as [start| |] eqn:Es; simpl;
    try discriminate.
  destruct (order_domain_values cw d start a) as [vals| |]; simpl;
    try discriminate.
  apply select_unassigned_variable_unassigned in Es as [Hin Hun].
  apply backtrack_values_restores.
  - now apply unassigned_nonblank.
  - intros w a2 Hc. apply IH. now apply consistent_setitem_nonblank.
Qed.

(** X6: when [backtrack] returns [None], the assignment it was given is
    as it was before the call: every entry added has been deleted again.
    The slots have at least one cell and the assignment given has no
    empty word. *)
Theorem backtrack_restores_assignment (fuel : nat) (d : Domains)
        (a a' : Assignment) :
  slots_positive cw -> nonblank a ->
  backtrack cw fuel d a = Return (None, a') -> a' = a.
Proof. intros Hpos Hnb. now apply backtrack_restores_aux. Qed.

Lemma extends_consistent (a r : Assignment) :
  extends a r -> consistent cw r = Return true -> consistent cw a = Return true.
Proof.
  intros Hext Hr. apply consistent_true_iff in Hr as [Hlen Hpairs].
  apply consistent_true_iff. split.
  - intros v w Hv. apply Hlen. now apply Hext.
  - intros x y wx wy i j Hne Hx Hy. apply Hpairs; auto.
Qed.

Lemma extends_setitem (a r : Assignment) (k : Var) (w : string) :
  extends a r -> dict_lookup k r = Some w -> extends (dict_setitem a k w) r.
Proof.
  intros Hext Hk v wv. destruct (Var_eqb k v) eqn:E.
  - apply Var_eqb_eq in E; subst v.
    rewrite dict_lookup_setitem_same. congruence.
  - apply Var_eqb_neq in E.
    rewrite dict_lookup_setitem_other by exact E. apply Hext.
Qed.

Lemma backtrack_values_exhaustive
      (recurse : Assignment -> outcome search_result) (start : Var)
      (a r : Assignment) (w0 : string) :
  dict_lookup start a = None ->
  (forall w a2, consistent cw (dict_setitem a start w) = Return true ->
                recurse (dict_setitem a start w) = Return (None, a2) ->
                a2 = dict_setitem a start w) ->
  (forall a2, recurse (dict_setitem a start w0) = Return (None, a2) -> False) ->
  extends a r -> consistent cw r = Return true ->
  dict_lookup start r = Some w0 ->
  forall vals a',
    In w0 vals ->
    backtrack_values cw recurse start vals a = Return (None, a') -> False.
Proof.
  intros Hfresh Hrest Hrec Hext Hr Hw0 vals.
  induction vals as [|w vals IH]; intros a' Hin; simpl; [destruct Hin|].
  destruct (String.eqb w w0) eqn:Ew.
  - apply String.eqb_eq in Ew; subst w.
    rewrite (extends_consistent _ r (extends_setitem _ _ _ _ Hext Hw0) Hr).
    simpl.
    destruct (recurse (dict_setitem a start w0)) as [[[r0|] a2]| |] eqn:Er;
      simpl; try discriminate.
    intros _. exact (Hrec a2 eq_refl).
  - apply String.eqb_neq in Ew.
    assert (Hin' : In w0 vals) by (destruct Hin; [congruence | assumption]).
    destruct (consistent cw (dict_setitem a start w)) as [[|]| |] eqn:Ec;
      simpl; try discriminate.
    + destruct (recurse (dict_setitem a start w)) as [[[r0|] a2]| |] eqn:Er;
        simpl; try discriminate.
      rewrite (Hrest w a2 Ec Er), dict_delitem_setitem_fresh by exact Hfresh.
      simpl. now apply IH.
    + rewrite dict_delitem_setitem_fresh by exact Hfresh. simpl. now apply IH.
Qed.

Lemma backtrack_exhaustive_aux (fuel : nat) (d : Domains) :
  slots_positive cw ->
  forall a a' r,
    nonblank a -> backtrack cw fuel d a = Return (None, a') ->
    extends a r -> checked cw r -> from_domains cw d r -> False.
Proof.
  intros Hpos. induction fuel as [|fuel IH];
    intros a a' r Hnb Hrun Hext [Hcomp Hcons] Hdom; simpl in Hrun;
    [discriminate|].
  destruct (assignment_complete cw a); [discriminate|].
  destruct (select_unassigned_variable cw d a) as [start| |] eqn:Es;
    simpl in Hrun; try discriminate.
  destruct (order_domain_values cw d start a) as [vals| |] eqn:Eo;
    simpl in Hrun; try discriminate.
  apply select_unassigned_variable_unassigned in Es as [Hin Hun].
  unfold assignment_complete in Hcomp.
  rewrite assignment_complete_loop_spec in Hcomp.
  destruct (Hcomp start Hin) as (w0 & Hw0 & _).
  destruct (Hdom start w0 Hin Hw0) as (dv & Hdv & Hw0dv).
  pose proof (unassigned_nonblank a start Hnb Hun) as Hfresh.
  apply (backtrack_values_exhaustive (backtrack cw fuel d) start a r w0
           Hfresh) with (vals := vals) (a' := a'); auto.
  - intros w a2 Hc. apply backtrack_restores_aux; [exact Hpos|].
    now apply consistent_setitem_nonblank.
  - intros a2 Hrec.
    apply (IH (dict_setitem a start w0) a2 r); auto.
    + apply consistent_setitem_nonblank; auto.
      apply (extends_consistent _ r); [|exact Hcons].
      now apply extends_setitem.
    + now apply extends_setitem.
    + split; [|exact Hcons].
      unfold assignment_complete. now rewrite assignment_complete_loop_spec.
  - exact (order_domain_values_In d start a vals dv w0 Eo Hdv Hw0dv).
Qed.

(** X7: [backtrack] is exhaustive.  When it returns [None], no assignment
    that has every entry of the one given, gives the slots words of their
    domains and passes [assignment_complete] and [consistent] exists. *)
Theorem backtrack_exhaustive (fuel : nat) (d : Domains) (a a' : Assignment) :
  slots_positive cw -> nonblank a ->
  backtrack cw fuel d a = Return (None, a') ->
  forall r, extends a r -> from_domains cw d r -> ~ checked cw r.
Proof.
  intros Hpos Hnb Hrun r Hext Hdom Hch.
  exact (backtrack_exhaustive_aux fuel d Hpos a a' r Hnb Hrun Hext Hch Hdom).
Qed.
End BacktrackFacts.

Lemma crossing_cw_slots_positive : slots_positive crossing_cw.
Proof. intros v [<-|[<-|[]]]; simpl; lia. Qed.

Lemma crossing_cw_overlaps_in_range : overlaps_in_range crossing_cw.
Proof.
  intros x y i j. simpl. unfold crossing_overlaps.
  destruct (Var_eqb x slotA) eqn:E1, (Var_eqb y slotD) eqn:E2,
           (Var_eqb x slotD) eqn:E3, (Var_eqb y slotA) eqn:E4;
    simpl; try discriminate; intros [= <- <-];
    rewrite ?Var_eqb_eq in *; subst; simpl; lia.
Qed.

Lemma backtrack_restores_assignment_witness :
  [(slotA, "CAT")] = [(slotA, "CAT")].
Proof.
  apply (backtrack_restores_assignment crossing_cw 3
           (init_domains crossing_cw) [(slotA, "CAT")] [(slotA, "CAT")]).
  - exact crossing_cw_slots_positive.
  - intros v H. simpl in H. destruct (Var_eqb v slotA); discriminate.
  - reflexivity.
Defined.

Lemma backtrack_exhaustive_witness :
  backtrack crossing_cw 3 (init_domains crossing_cw) [] = Return (None, []) /\
  ~ checked crossing_cw [(slotA, "DOG"); (slotD, "CAT")].
Proof.
  split; [reflexivity|].
  apply (backtrack_exhaustive crossing_cw 3 (init_domains crossing_cw) [] []).
  - exact crossing_cw_slots_positive.
  - intros v H; discriminate.
  - reflexivity.
  - intros v w H; discriminate.
  - intros v w [<-|[<-|[]]] [= <-]; eexists; (split; [reflexivity|]);
      simpl; auto.
Defined.

(** ** Calls that return *)

Section Returns.
Context (cw : Crossword).
Hypothesis Hrange : overlaps_in_range cw.

Lemma consistent_lengths_returns (keys : list Var) (a : Assignment) :
  (forall k, In k keys -> dict_lookup k a <> None) ->
  exists b, consistent_lengths keys a = Return b.
Proof.
  induction keys as [|k keys IH]; simpl; intros H; [eauto|].
  unfold dict_getitem.
  destruct (dict_lookup k a) as [w|] eqn:Ek;
    [|exfalso; apply (H k); [now left | exact Ek]].
  simpl. destruct (Nat.eqb (var_length k) (String.length w)); simpl; [|eauto].
  apply IH. intros u Hu. apply H. now right.
Qed.

Lemma consistent_pairs_with_returns (vi : Var) (keys : list Var)
      (a : Assignment) :
  lengths_match a -> dict_lookup vi a <> None ->
  (forall k, In k keys -> dict_lookup k a <> None) ->
  exists b, consistent_pairs_with cw vi keys a = Return b.
Proof.
  intros Hlen Hvi. induction keys as [|vj keys IH]; simpl; intros H; [eauto|].
  assert (IH' : exists b, consistent_pairs_with cw vi keys a = Return b)
    by (apply IH; intros u Hu; apply H; now right).
  destruct (Var_eqb vi vj); simpl; [exact IH'|].
  destruct (overlaps cw vi vj) as [[i j]|] eqn:Eov; [|exact IH'].
  destruct (Hrange _ _ _ _ Eov) as [Hi Hj].
  destruct (dict_lookup vi a) as [wi|] eqn:Ewi; [|congruence].
  destruct (dict_lookup vj a) as [wj|] eqn:Ewj;
    [|exfalso; apply (H vj); [now left | exact Ewj]].
  unfold dict_getitem, str_index. rewrite Ewi, Ewj; simpl.
  destruct (string_get_some wi i) as (ci & ->);
    [rewrite (Hlen _ _ Ewi); exact Hi|].
  destruct (string_get_some wj j) as (cj & ->);
    [rewrite (Hlen _ _ Ewj); exact Hj|].
  simpl. destruct (Ascii.eqb ci cj); simpl; [|eauto].
  destruct (String.eqb wi wj); [eauto | exact IH'].
Qed.

Lemma consistent_pairs_returns (keys : list Var) (a : Assignment) :
  lengths_match a ->
  (forall k, In k keys -> dict_lookup k a <> None) ->
  exists b, consistent_pairs cw keys a = Return b.
Proof.
  intros Hlen. induction keys as [|vi keys IH]; simpl; intros H; [eauto|].
  assert (Hvi : dict_lookup vi a <> None) by (apply H; now left).
  assert (Hkeys : forall k, In k (dict_keys a) -> dict_lookup k a <> None)
    by (intros k; apply dict_lookup_keys).
  destruct (consistent_pairs_with_returns vi (dict_keys a) a Hlen Hvi Hkeys)
    as ([|] & ->); simpl; [|eauto].
  apply IH. intros u Hu. apply H. now right.
Qed.

Lemma consistent_returns_aux (a : Assignment) :
  exists b, consistent cw a = Return b.
Proof.
  unfold consistent.
  destruct (consistent_lengths_returns (dict_keys a) a) as ([|] & Hb);
    [intros k; apply dict_lookup_keys | | rewrite Hb; simpl; eauto].
  rewrite Hb; simpl.
  apply consistent_pairs_returns; [|intros k; apply dict_lookup_keys].
  rewrite consistent_lengths_true in Hb.
  intros v w Hv.
  destruct (Hb v) as (w' & Hw' & Hl);
    [apply dict_lookup_keys; congruence | congruence].
Qed.

Lemma rules_out_in_returns (var vi : Var) (word : string) (di : list string)
      (count : nat) :
  String.length word = var_length var ->
  (forall wj, In wj di -> String.length wj = var_length vi) ->
  exists n, rules_out_in cw var vi word di count = Return n.
Proof.
  intros Hw. revert count; induction di as [|wj di IH]; intros count H; simpl;
    [eauto|].
  assert (IH' : forall c, exists n, rules_out_in cw var vi word di c = Return n)
    by (intros c; apply IH; intros u Hu; apply H; now right).
  destruct (String.eqb wj word); [apply IH'|].
  destruct (overlaps cw vi var) as [[i j]|] eqn:Eov; [|apply IH'].
  destruct (Hrange _ _ _ _ Eov) as [Hi Hj].
  unfold str_index; simpl.
  destruct (string_get_some word j) as (c & ->); [rewrite Hw; exact Hj|].
  destruct (string_get_some wj i) as (cj & ->);
    [rewrite (H wj) by (now left); exact Hi|].
  simpl. destruct (Ascii.eqb c cj); simpl; apply IH'.
Qed.

Lemma rules_out_loop_returns (d : Domains) (var : Var) (word : string)
      (nbrs : list Var) (a : Assignment) (count : nat) :
  domains_fit d -> String.length word = var_length var ->
  (forall u, In u nbrs -> dict_lookup u d <> None) ->
  exists n, rules_out_loop cw d var word nbrs a count = Return n.
Proof.
  intros Hfit Hw. revert count; induction nbrs as [|u nbrs IH];
    intros count H; simpl; [eauto|].
  assert (IH' : forall c,
             exists n, rules_out_loop cw d var word nbrs a c = Return n)
    by (intros c; apply IH; intros v Hv; apply H; now right).
  destruct (truthy (assignment_get a u)); simpl; [apply IH'|].
  unfold dict_getitem.
  destruct (dict_lookup u d) as [du|] eqn:Eu;
    [|exfalso; apply (H u); [now left | exact Eu]].
  simpl.
  destruct (rules_out_in_returns var u word du count Hw) as (n & ->);
    [intros wj Hwj; exact (Hfit u du wj Eu Hwj)|].
  simpl. apply IH'.
Qed.

Lemma neighbors_variables (v u : Var) :
  In u (neighbors cw v) -> In u (variables cw).
Proof. unfold neighbors. intros H. now apply filter_In in H. Qed.

Lemma order_domain_values_returns (d : Domains) (var : Var) (a : Assignment) :
  domains_cover cw d -> domains_fit d -> dict_lookup var d <> None ->
  exists vals, order_domain_values cw d var a = Return vals.
Proof.
  intros Hcov Hfit Hvar. unfold order_domain_values, dict_getitem.
  destruct (dict_lookup var d) as [dv|] eqn:Ev; [|congruence]. simpl.
  assert (Hl : forall ws, (forall w, In w ws -> In w dv) ->
                          exists l, rules_out_list cw d var ws a = Return l).
  { induction ws as [|w ws IH]; simpl; intros Hsub; [eauto|].
    unfold rules_out_values.
    destruct (rules_out_loop_returns d var w (neighbors cw var) a 0 Hfit)
      as (n & ->).
    - apply (Hfit var dv w Ev). apply Hsub. now left.
    - intros u Hu. apply Hcov. exact (neighbors_variables var u Hu).
    - simpl. destruct IH as (l & ->); [intros u Hu; apply Hsub; now right|].
      simpl. eauto. }
  destruct (Hl dv) as (l & ->); [auto|]. simpl. eauto.
Qed.

(** Giving a word to a slot without an entry leaves fewer slots without
    one. *)
Lemma count_unassigned_setitem (a : Assignment) (start : Var) (w : string) :
  In start (variables cw) -> unassigned a start = true -> w <> "" ->
  count_unassigned cw (dict_setitem a start w) < count_unassigned cw a.
Proof.
  intros Hin Hun Hw. unfold count_unassigned.
  assert (Hnew : forall v, unassigned (dict_setitem a start w) v
                           = if Var_eqb start v then false else unassigned a v).
  { intros v. unfold unassigned, assignment_get.
    destruct (Var_eqb start v) eqn:E.
    - apply Var_eqb_eq in E; subst v. rewrite dict_lookup_setitem_same.
      destruct w; [congruence | reflexivity].
    - apply Var_eqb_neq in E.
      now rewrite dict_lookup_setitem_other by exact E. }
  induction (variables cw) as [|v vars IH]; simpl; [destruct Hin|].
  rewrite Hnew.
  assert (Hle : List.length (filter (unassigned (dict_setitem a start w)) vars)
                <= List.length (filter (unassigned a) vars)).
  { clear IH Hin. induction vars as [|u vars IHv]; simpl; [lia|].
    rewrite Hnew. destruct (Var_eqb start u), (unassigned a u); simpl; lia. }
  destruct (Var_eqb start v) eqn:E.
  - apply Var_eqb_eq in E; subst v. rewrite Hun. simpl. lia.
  - destruct Hin as [->|Hin]; [now rewrite Var_eqb_refl in E|].
    specialize (IH Hin). destruct (unassigned a v); simpl; lia.
Qed.

Lemma backtrack_values_returns
      (recurse : Assignment -> outcome search_result) (start : Var)
      (a : Assignment) :
  dict_lookup start a = None ->
  (forall w, consistent cw (dict_setitem a start w) = Return true ->
             exists res, recurse (dict_setitem a start w) = Return res) ->
  (forall w a2, consistent cw (dict_setitem a start w) = Return true ->
                recurse (dict_setitem a start w) = Return (None, a2) ->
                a2 = dict_setitem a start w) ->
  forall vals, exists res,
      backtrack_values cw recurse start vals a = Return res.
Proof.
  intros Hfresh Hret Hrest vals; induction vals as [|w vals IH]; simpl;
    [eauto|].
  destruct (consistent_returns_aux (dict_setitem a start w)) as ([|] & Ec);
    rewrite Ec; simpl.
  - destruct (Hret w Ec) as ([[r0|] a2] & Er); rewrite Er; simpl; [eauto|].
    rewrite (Hrest w a2 Ec Er), dict_delitem_setitem_fresh by exact Hfresh.
    exact IH.
  - rewrite dict_delitem_setitem_fresh by exact Hfresh. exact IH.
Qed.

Lemma backtrack_returns_aux (d : Domains) :
  slots_positive cw -> domains_cover cw d -> domains_fit d ->
  forall fuel a,
    nonblank a -> count_unassigned cw a < fuel ->
    exists res, backtrack cw fuel d a = Return res.
Proof.
  intros Hpos Hcov Hfit. induction fuel as [|fuel IH]; intros a Hnb Hlt;
    [lia|]. simpl.
  destruct (assignment_complete cw a) eqn:Ea; [eauto|].
  destruct (select_unassigned_variable_returns cw d a Hcov Ea) as (start & Es).
  rewrite Es; simpl.
  apply select_unassigned_variable_unassigned in Es as [Hin Hun].
  destruct (order_domain_values_returns d start a Hcov Hfit (Hcov start Hin))
    as (vals & ->).
  simpl.
  assert (Hstep : forall w,
             consistent cw (dict_setitem a start w) = Return true ->
             nonblank (dict_setitem a start w) /\
             count_unassigned cw (dict_setitem a start w) < fuel).
  { intros w Hc.
    pose proof (consistent_setitem_nonblank cw a start w Hpos Hin Hnb Hc)
      as Hnb1.
    split; [exact Hnb1|].
    assert (w <> "").
    { intros ->. apply (Hnb1 start). apply dict_lookup_setitem_same. }
    pose proof (count_unassigned_setitem a start w Hin Hun H). lia. }
  apply backtrack_values_returns.
  - now apply unassigned_nonblank.
  - intros w Hc. destruct (Hstep w Hc). now apply IH.
  - intros w a2 Hc. destruct (Hstep w Hc).
    now apply (backtrack_restores_aux cw fuel d Hpos).
Qed.
End Returns.

(** X8: on a grid whose overlap indices lie inside the slots,
    [consistent] never raises: for every assignment it returns [True] or
    [False]. *)
Theorem consistent_returns (cw : Crossword) (a : Assignment) :
  overlaps_in_range cw -> exists b, consistent cw a = Return b.
Proof. intros Hrange. now apply consistent_returns_aux. Qed.

Lemma consistent_returns_witness :
  exists b, consistent crossing_cw [(slotA, "CAT"); (slotD, "DOG")] = Return b.
Proof.
  apply (consistent_returns crossing_cw). exact crossing_cw_overlaps_in_range.
Defined.

(** X9: [backtrack] terminates without an exception.  On a grid whose
    slots have cells and whose overlap indices lie inside the slots, with
    a domain for every slot holding words of the slot's length, and an
    assignment without empty words, a call whose recursion budget exceeds
    the number of slots without an entry returns (an assignment or
    [None]); the recursion is never deeper than that number plus one. *)
Theorem backtrack_returns (cw : Crossword) (fuel : nat) (d : Domains)
        (a : Assignment) :
  slots_positive cw -> overlaps_in_range cw ->
  domains_cover cw d -> domains_fit d -> nonblank a ->
  count_unassigned cw a < fuel ->
  exists res, backtrack cw fuel d a = Return res.
Proof.
  intros Hpos Hrange Hcov Hfit Hnb Hlt.
  now apply backtrack_returns_aux.
Qed.

Lemma backtrack_returns_witness :
  exists res, backtrack crossing_cw 3 (init_domains crossing_cw) [] = Return res.
Proof.
  apply (backtrack_returns crossing_cw 3 (init_domains crossing_cw) []).
  - exact crossing_cw_slots_positive.
  - exact crossing_cw_overlaps_in_range.
  - intros v [<-|[<-|[]]]; discriminate.
  - intros v dv w Hv Hw. simpl in Hv.
    destruct (Var_eqb v slotA) eqn:E1; [|destruct (Var_eqb v slotD) eqn:E2];
      try discriminate; rewrite Var_eqb_eq in *; subst; injection Hv as <-;
      destruct Hw as [<-|[<-|[]]]; reflexivity.
  - intros v H; discriminate.
  - apply Nat.ltb_lt. reflexivity.
Defined.

(** ** solve on the domains built by the constructor *)

Section SolveFacts.
Context (cw : Crossword).

Lemma init_domains_lookup (v : Var) :
  dict_lookup v (init_domains cw)
  = if existsb (Var_eqb v) (variables cw) then Some (words cw) else None.
Proof.
  unfold init_domains.
  induction (variables cw) as [|u vars IH]; simpl; [reflexivity|].
  destruct (Var_eqb v u); simpl; [reflexivity | exact IH].
Qed.

Lemma existsb_Var_eqb (v : Var) (l : list Var) :
  existsb (Var_eqb v) l = true <-> In v l.
Proof.
  rewrite existsb_exists. split.
  - intros (u & Hu & E). apply Var_eqb_eq in E. now subst.
  - intros H. exists v. split; [exact H | apply Var_eqb_refl].
Qed.

Lemma node_consistent_domains_aux :
  exists d1,
    enforce_node_consistency (init_domains cw) = Return d1 /\
    forall v,
      dict_lookup v d1
      = if existsb (Var_eqb v) (variables cw)
        then Some (filter (fits v) (words cw)) else None.
Proof.
  destruct (enforce_node_consistency_spec (init_domains cw))
    as (d1 & Hrun & _ & Hl).
  exists d1; split; [exact Hrun|].
  intros v. rewrite Hl, init_domains_lookup.
  now destruct (existsb (Var_eqb v) (variables cw)).
Qed.

Lemma init_domains_copying_lookup (copy : Var -> pyset) (v : Var) :
  dict_lookup v (init_domains_copying cw copy)
  = if existsb (Var_eqb v) (variables cw) then Some (copy v) else None.
Proof.
  unfold init_domains_copying.
  induction (variables cw) as [|u vars IH]; simpl; [reflexivity|].
  destruct (Var_eqb v u) eqn:E; simpl; [|exact IH].
  apply Var_eqb_eq in E. now subst u.
Qed.

(** X10: the constructor followed by [enforce_node_consistency] gives
    every slot of the grid a domain that holds exactly the words of the
    vocabulary that have the slot's length, and gives nothing else a
    domain.  This holds whatever the order in which each copy of the
    vocabulary iterates. *)
Theorem node_consistent_domains (copy : Var -> pyset) :
  (forall v, Permutation (copy v) (words cw)) ->
  exists d1,
    enforce_node_consistency (init_domains_copying cw copy) = Return d1 /\
    forall v,
      (In v (variables cw) ->
       exists dv,
         dict_lookup v d1 = Some dv /\
         forall w, In w dv <->
                   In w (words cw) /\ String.length w = var_length v) /\
      (~ In v (variables cw) -> dict_lookup v d1 = None).
Proof.
  intros Hcopy.
  destruct (enforce_node_consistency_spec (init_domains_copying cw copy))
    as (d1 & Hrun & _ & Hl).
  exists d1; split; [exact Hrun|].
  intros v. rewrite Hl, init_domains_copying_lookup. split; intros H.
  - apply existsb_Var_eqb in H. rewrite H. simpl.
    eexists; split; [reflexivity|].
    intros w. rewrite filter_In. unfold fits. rewrite Nat.eqb_eq.
    split; intros [Hw Hlen]; (split; [|exact Hlen]).
    + exact (Permutation_in w (Hcopy v) Hw).
    + exact (Permutation_in w (Permutation_sym (Hcopy v)) Hw).
  - destruct (existsb (Var_eqb v) (variables cw)) eqn:E; [|reflexivity].
    apply existsb_Var_eqb in E. contradiction.
Qed.

Lemma node_consistent_domains_wf (d1 : Domains) :
  (forall v, dict_lookup v d1
             = if existsb (Var_eqb v) (variables cw)
               then Some (filter (fits v) (words cw)) else None) ->
  domains_cover cw d1 /\ domains_fit d1.
Proof.
  intros Hl. split.
  - intros v Hv. rewrite Hl. apply existsb_Var_eqb in Hv. now rewrite Hv.
  - intros v dv w Hv Hw. rewrite Hl in Hv.
    destruct (existsb (Var_eqb v) (variables cw)); [|discriminate].
    injection Hv as <-. apply filter_In in Hw as [_ Hf].
    now apply Nat.eqb_eq in Hf.
Qed.

Lemma count_unassigned_empty :
  count_unassigned cw [] = List.length (variables cw).
Proof.
  unfold count_unassigned.
  induction (variables cw) as [|v vars IH]; simpl; [reflexivity|].
  now rewrite IH.
Qed.

(** X11: [solve] terminates without an exception.  On a grid whose slots
    have cells and whose overlap indices lie inside the slots, [solve] on
    the domains built by the constructor returns an assignment or [None];
    the recursion of [backtrack] is never deeper than the number of slots
    plus one. *)
Theorem solve_returns (fuel : nat) :
  slots_positive cw -> overlaps_in_range cw ->
  List.length (variables cw) < fuel ->
  exists r, solve cw fuel (init_domains cw) = Return r.
Proof.
  intros Hpos Hrange Hlt. unfold solve, solve_with.
  destruct node_consistent_domains_aux as (d1 & -> & Hl).
  destruct fuel as [|fuel]; [lia|].
  cbv beta iota delta [bind].
  change (ac3 cw (S fuel) None d1)
    with (Return (true, d1) : outcome (bool * Domains)).
  cbv beta iota.
  destruct (node_consistent_domains_wf d1 Hl) as [Hcov Hfit].
  destruct (backtrack_returns_aux cw Hrange d1 Hpos Hcov Hfit (S fuel) [])
    as ([res a'] & ->).
  - intros v H; discriminate.
  - rewrite count_unassigned_empty. exact Hlt.
  - eauto.
Qed.
End SolveFacts.

Lemma node_consistent_domains_witness :
  exists d1,
    enforce_node_consistency
      (init_domains_copying crossing_cw (fun _ => rev (words crossing_cw)))
    = Return d1 /\
    forall v,
      (In v (variables crossing_cw) ->
       exists dv,
         dict_lookup v d1 = Some dv /\
         forall w, In w dv <->
                   In w (words crossing_cw) /\
                   String.length w = var_length v) /\
      (~ In v (variables crossing_cw) -> dict_lookup v d1 = None).
Proof.
  apply (node_consistent_domains crossing_cw
           (fun _ => rev (words crossing_cw))).
  intros v. apply Permutation_sym, Permutation_rev.
Defined.

Section SolveResults.
Context (cw : Crossword).

Lemma order_domain_values_from_domain (d : Domains) (var : Var)
      (a : Assignment) (vals : list string) (w : string) :
  order_domain_values cw d var a = Return vals -> In w vals ->
  exists dv, dict_lookup var d = Some dv /\ In w dv.
Proof.
  unfold order_domain_values, dict_getitem.
  destruct (dict_lookup var d) as [dv|]; simpl; [|discriminate].
  destruct (rules_out_list cw d var dv a) as [l| |] eqn:El; simpl;
    try discriminate.
  intros [= <-] Hw. exists dv; split; [reflexivity|].
  apply rules_out_list_returns in El as [<- _].
  apply in_map_iff in Hw as (p & <- & Hp).
  apply in_map. apply (sorted_by_In snd). exact Hp.
Qed.

Lemma dict_lookup_In (a : Assignment) (v : Var) (w : string) :
  dict_lookup v a = Some w -> In (v, w) a.
Proof.
  induction a as [|[k0 w0] a IH]; simpl; [discriminate|].
  destruct (Var_eqb v k0) eqn:E.
  - apply Var_eqb_eq in E; subst. intros [= ->]. now left.
  - intros H. right. now apply IH.
Qed.

Lemma entries_drawn_lookup (d : Domains) (a : Assignment) :
  entries_drawn cw d a -> drawn_from cw d a.
Proof.
  intros H v w Hv. apply dict_lookup_In in Hv.
  unfold entries_drawn in H. rewrite Forall_forall in H.
  exact (H (v, w) Hv).
Qed.

Lemma entries_drawn_setitem (d : Domains) (a : Assignment) (start : Var)
      (w : string) (dv : pyset) :
  entries_drawn cw d a -> In start (variables cw) ->
  dict_lookup start d = Some dv -> In w dv ->
  entries_drawn cw d (dict_setitem a start w).
Proof.
  unfold entries_drawn. intros Ha Hin Hdv Hw.
  induction a as [|[k0 w0] a IH]; simpl.
  - constructor; [simpl; eauto | constructor].
  - inversion Ha as [|? ? Hp Hrest]; subst.
    destruct (Var_eqb start k0) eqn:E.
    + apply Var_eqb_eq in E; subst k0. constructor; [simpl; eauto | exact Hrest].
    + constructor; [exact Hp | now apply IH].
Qed.

Lemma entries_drawn_delitem (d : Domains) (a a' : Assignment) (k : Var) :
  entries_drawn cw d a -> dict_delitem a k = Return a' ->
  entries_drawn cw d a'.
Proof.
  unfold entries_drawn. revert a'.
  induction a as [|[k0 w0] a IH]; simpl; intros a' Ha; [discriminate|].
  inversion Ha as [|? ? Hp Hrest]; subst.
  destruct (Var_eqb k k0); [now intros [= <-]|].
  destruct (dict_delitem a k) as [a1| |]; simpl; try discriminate.
  intros [= <-]. constructor; [exact Hp | now apply IH].
Qed.

Lemma backtrack_values_drawn
      (recurse : Assignment -> outcome search_result) (d : Domains)
      (start : Var) (dv : pyset) :
  In start (variables cw) -> dict_lookup start d = Some dv ->
  (forall a1 res a', entries_drawn cw d a1 -> recurse a1 = Return (res, a') ->
                     entries_drawn cw d a' /\
                     forall r, res = Some r -> r = a') ->
  forall vals a res a',
    (forall w, In w vals -> In w dv) -> entries_drawn cw d a ->
    backtrack_values cw recurse start vals a = Return (res, a') ->
    entries_drawn cw d a' /\ forall r, res = Some r -> r = a'.
Proof.
  intros Hin Hdv Hrec vals; induction vals as [|w vals IH];
    intros a res a' Hsub Ha; simpl.
  - intros [= <- <-]. split; [exact Ha | discriminate].
  - assert (Ha1 : entries_drawn cw d (dict_setitem a start w)).
    { apply (entries_drawn_setitem d a start w dv); auto. apply Hsub. now left. }
    assert (Hsub' : forall u, In u vals -> In u dv)
      by (intros u Hu; apply Hsub; now right).
    destruct (consistent cw (dict_setitem a start w)) as [[|]| |]; simpl;
      try discriminate.
    + destruct (recurse (dict_setitem a start w)) as [[[r0|] a2]| |] eqn:Er;
        simpl; try discriminate.
      * intros [= <- <-]. exact (Hrec _ _ _ Ha1 Er).
      * destruct (dict_delitem a2 start) as [a3| |] eqn:Ed; simpl;
          try discriminate.
        apply IH; [exact Hsub'|].
        apply (entries_drawn_delitem d a2 a3 start); [|exact Ed].
        exact (proj1 (Hrec _ _ _ Ha1 Er)).
    + destruct (dict_delitem (dict_setitem a start w) start) as [a3| |] eqn:Ed;
        simpl; try discriminate.
      apply IH; [exact Hsub'|].
      exact (entries_drawn_delitem d _ a3 start Ha1 Ed).
Qed.

Lemma backtrack_drawn (fuel : nat) (d : Domains) :
  forall a res a',
    entries_drawn cw d a -> backtrack cw fuel d a = Return (res, a') ->
    entries_drawn cw d a' /\ forall r, res = Some r -> r = a'.
Proof.
  induction fuel as [|fuel IH]; intros a res a' Ha; simpl; [discriminate|].
  destruct (assignment_complete cw a).
  - intros [= <- <-]. split; [exact Ha | now intros r [= <-]].
  - destruct (select_unassigned_variable cw d a) as [start| |] eqn:Es; simpl;
      try discriminate.
    destruct (order_domain_values cw d start a) as [vals| |] eqn:Eo; simpl;
      try discriminate.
    apply select_unassigned_variable_unassigned in Es as [Hin _].
    assert (Hdv : exists dv, dict_lookup start d = Some dv).
    { unfold order_domain_values, dict_getitem in Eo.
      destruct (dict_lookup start d) as [dv|]; [eauto | discriminate]. }
    destruct Hdv as (dv & Hdv).
    apply (backtrack_values_drawn (backtrack cw fuel d) d start dv Hin Hdv IH);
      [|exact Ha].
    intros w Hw.
    destruct (order_domain_values_from_domain d start a vals w Eo Hw)
      as (dv' & Hdv' & Hw').
    congruence.
Qed.

(** X12: an assignment returned by [solve] gives every slot of the grid a
    non-empty word of the slot's length; two distinct slots that have an
    overlap agree on the shared letter and hold different words.  (Two
    slots without an overlap are not compared.) *)
Theorem solve_sound (fuel : nat) (d : Domains) (r : Assignment) :
  solve cw fuel d = Return (Some r) ->
  (forall v, In v (variables cw) ->
             exists w, dict_lookup v r = Some w /\ w <> "") /\
  lengths_match r /\ crossing_pairs_agree cw r.
Proof. apply solve_with_sound. Qed.

(** X13: an assignment returned by [solve] on the domains built by the
    constructor has entries for slots of the grid only, and every word in
    it is a word of the vocabulary. *)
Theorem solve_uses_vocabulary (fuel : nat) (r : Assignment) :
  solve cw fuel (init_domains cw) = Return (Some r) ->
  forall v w, dict_lookup v r = Some w ->
              In v (variables cw) /\ In w (words cw).
Proof.
  unfold solve, solve_with.
  destruct (node_consistent_domains_aux cw) as (d1 & -> & Hl).
  cbv beta iota delta [bind].
  destruct (ac3 cw fuel None d1) as [[b d2]| |] eqn:Eac; try discriminate.
  assert (d2 = d1) as ->.
  { destruct fuel; [discriminate|]. now injection Eac as _ <-. }
  destruct (backtrack cw fuel d1 []) as [[[r0|] a']| |] eqn:Eb;
    try discriminate.
  intros [= <-] v w Hv.
  destruct (backtrack_drawn fuel d1 [] (Some r0) a') as [Hdr Heq];
    [constructor | exact Eb |].
  rewrite (Heq r0 eq_refl) in Hv.
  destruct (entries_drawn_lookup d1 a' Hdr v w Hv) as (Hin & dv & Hdv & Hw).
  split; [exact Hin|].
  rewrite Hl in Hdv.
  destruct (existsb (Var_eqb v) (variables cw)); [|discriminate].
  injection Hdv as <-. now apply filter_In in Hw.
Qed.

(** X14: [solve] is exhaustive.  On a grid whose slots have cells, when
    [solve] on the domains built by the constructor returns [None], no
    assignment of words of the vocabulary passes [assignment_complete]
    and [consistent]. *)
Theorem solve_exhaustive (fuel : nat) :
  slots_positive cw ->
  solve cw fuel (init_domains cw) = Return None ->
  forall r, from_vocabulary cw r -> ~ checked cw r.
Proof.
  intros Hpos. unfold solve, solve_with.
  destruct (node_consistent_domains_aux cw) as (d1 & -> & Hl).
  cbv beta iota delta [bind].
  destruct (ac3 cw fuel None d1) as [[b d2]| |] eqn:Eac; try discriminate.
  assert (d2 = d1) as ->.
  { destruct fuel; [discriminate|]. now injection Eac as _ <-. }
  destruct (backtrack cw fuel d1 []) as [[[r0|] a']| |] eqn:Eb;
    try discriminate.
  intros _ r Hvoc Hch.
  apply (backtrack_exhaustive_aux cw fuel d1 Hpos [] a' r); auto.
  - intros v H; discriminate.
  - intros v w H; discriminate.
  - intros v w Hv Hw. rewrite Hl.
    apply (existsb_Var_eqb v) in Hv. rewrite Hv.
    eexists; split; [reflexivity|]. apply filter_In. split; [eauto|].
    destruct Hch as [_ Hc]. apply consistent_true_iff in Hc as [Hlen _].
    unfold fits. apply Nat.eqb_eq. eauto.
Qed.
End SolveResults.

Lemma solve_returns_witness :
  exists r, solve crossing_cw 3 (init_domains crossing_cw) = Return r.
Proof.
  apply (solve_returns crossing_cw 3).
  - exact crossing_cw_slots_positive.
  - exact crossing_cw_overlaps_in_range.
  - apply Nat.ltb_lt. reflexivity.
Defined.

Lemma solve_sound_witness :
  (forall v, In v (variables single_cw) ->
             exists w, dict_lookup v [(slotA, "CAT")] = Some w /\ w <> "") /\
  lengths_match [(slotA, "CAT")] /\
  crossing_pairs_agree single_cw [(slotA, "CAT")].
Proof.
  apply (solve_sound single_cw 2 (init_domains single_cw)). reflexivity.
Defined.

Lemma solve_uses_vocabulary_witness :
  In slotA (variables single_cw) /\ In "CAT" (words single_cw).
Proof.
  apply (solve_uses_vocabulary single_cw 2 [(slotA, "CAT")] eq_refl slotA "CAT").
  reflexivity.
Defined.

Lemma solve_exhaustive_witness :
  solve crossing_cw 3 (init_domains crossing_cw) = Return None /\
  ~ checked crossing_cw [(slotA, "DOG"); (slotD, "CAT")].
Proof.
  split; [reflexivity|].
  apply (solve_exhaustive crossing_cw 3).
  - exact crossing_cw_slots_positive.
  - reflexivity.
  - intros v w H. simpl in H.
    destruct (Var_eqb v slotA); [|destruct (Var_eqb v slotD)];
      try discriminate; injection H as <-; simpl; auto.
Defined.

(** ** Node consistency, again *)

Lemma wrong_length_filtered (v : Var) (s : pyset) :
  wrong_length v (filter (fits v) s) = [].
Proof.
  unfold wrong_length. induction s as [|w s IH]; simpl; [reflexivity|].
  destruct (fits v w) eqn:E; simpl; [|exact IH].
  unfold fits in E. rewrite E. simpl. exact IH.
Qed.

Lemma node_consistency_loop_fixed (keys : list Var) (d : Domains) :
  (forall k, In k keys ->
             exists s, dict_lookup k d = Some s /\ wrong_length k s = []) ->
  node_consistency_loop keys d = Return d.
Proof.
  induction keys as [|k keys IH]; simpl; intros H; [reflexivity|].
  destruct (H k) as (s & Hs & Hw); [now left|].
  unfold dict_getitem. rewrite Hs. simpl. rewrite Hw. simpl.
  apply IH. intros u Hu. apply H. now right.
Qed.

(** X15: [enforce_node_consistency] is idempotent: a second call returns
    the domains of the first call unchanged. *)
Theorem enforce_node_consistency_idempotent (d : Domains) :
  exists d1,
    enforce_node_consistency d = Return d1 /\
    enforce_node_consistency d1 = Return d1.
Proof.
  destruct (enforce_node_consistency_spec d) as (d1 & Hrun & Hk & Hl).
  exists d1; split; [exact Hrun|].
  unfold enforce_node_consistency. apply node_consistency_loop_fixed.
  intros k Hk1. rewrite Hl.
  destruct (dict_lookup k d) as [s|] eqn:Es; simpl.
  - eexists; split; [reflexivity | apply wrong_length_filtered].
  - exfalso. rewrite Hk in Hk1. apply dict_lookup_keys in Hk1. congruence.
Qed.

(** ** revise and consistent, in general *)

(** X16: [revise] never revises.  Whenever it returns, it returns [False]
    and every domain is as it was before the call. *)
Theorem revise_never_revises (cw : Crossword) (d d' : Domains) (x y : Var)
        (r : bool) :
  revise cw d x y = Return (r, d') -> r = false /\ d' = d.
Proof. apply revise_returns_unchanged. Qed.

Lemma revise_never_revises_witness :
  false = false /\ init_domains parallel_cw = init_domains parallel_cw.
Proof.
  apply (revise_never_revises parallel_cw (init_domains parallel_cw)
           (init_domains parallel_cw) slotA slotB false).
  reflexivity.
Defined.

(** X17: two slots with an overlap, both with a domain: as soon as some
    candidate of the first and some candidate of the second differ at the
    overlap, or one of them is too short for it, [revise] raises. *)
Theorem revise_raises_when_candidates_differ (cw : Crossword) (d : Domains)
        (x y : Var) (ov : nat * nat) (dx dy : pyset) :
  overlaps cw x y = Some ov ->
  dict_lookup x d = Some dx -> dict_lookup y d = Some dy ->
  (exists word1 word2,
      In word1 dx /\ In word2 dy /\
      String.get (fst ov) word1 <> String.get (snd ov) word2) ->
  exists e, revise cw d x y = Raise e.
Proof. apply revise_raises_on_disagreement. Qed.

Lemma revise_raises_when_candidates_differ_witness :
  exists e,
    revise crossing_cw [(slotA, ["CAT"]); (slotD, ["ARC"; "DOG"])] slotA slotD
    = Raise e.
Proof.
  apply (revise_raises_when_candidates_differ crossing_cw
           [(slotA, ["CAT"]); (slotD, ["ARC"; "DOG"])] slotA slotD (1, 0)
           ["CAT"] ["ARC"; "DOG"]); try reflexivity.
  exists "CAT", "DOG". split; [now left|]. split; [right; now left|].
  discriminate.
Defined.

(** X18: what [consistent] decides.  It returns [True] exactly when every
    assigned word has the length of its slot and every two distinct
    assigned slots that have an overlap hold letters that exist and agree
    at the overlap and hold different words. *)
Theorem consistent_decides (cw : Crossword) (a : Assignment) :
  consistent cw a = Return true <->
  lengths_match a /\ crossing_pairs_agree cw a.
Proof. apply consistent_true_iff. Qed.

(** ** letter_grid *)

Section ListSetitem.
Context {A : Type}.

Lemma list_setitem_spec (l l' : list A) (n : nat) (x : A) :
  list_setitem l n x = Return l' ->
  n < List.length l /\ List.length l' = List.length l /\
  forall m, nth_error l' m = if Nat.eqb m n then Some x else nth_error l m.
Proof.
  revert n l'; induction l as [|y l IH]; intros n l'; simpl; [discriminate|].
  destruct n as [|n].
  - intros [= <-]. split; [lia|]. split; [reflexivity|].
    intros [|m]; reflexivity.
  - destruct (list_setitem l n x) as [l1| |] eqn:E; simpl; try discriminate.
    intros [= <-]. destruct (IH n l1 E) as (Hn & Hlen & Hnth).
    split; [lia|]. split; [simpl; lia|].
    intros [|m]; simpl; [reflexivity | apply Hnth].
Qed.

Lemma list_setitem_returns (l : list A) (n : nat) (x : A) :
  n < List.length l -> exists l', list_setitem l n x = Return l'.
Proof.
  revert n; induction l as [|y l IH]; intros n; simpl; [lia|].
  destruct n as [|n]; [eauto|]. intros H.
  destruct (IH n) as (l' & ->); [lia|]. simpl. eauto.
Qed.

Lemma list_setitem_raises (l : list A) (n : nat) (x : A) :
  List.length l <= n -> list_setitem l n x = Raise IndexError.
Proof.
  revert n; induction l as [|y l IH]; intros n; simpl; [reflexivity|].
  destruct n as [|n]; [lia|]. intros H. rewrite IH by lia. reflexivity.
Qed.
End ListSetitem.

Lemma grid_setitem_spec (height width : nat) (g g' : grid) (i j : nat)
      (c : ascii) :
  grid_shape height width g ->
  grid_setitem g i j c = Return g' ->
  i < height /\ j < width /\ grid_shape height width g' /\
  forall r c', grid_cell g' r c'
               = if Nat.eqb r i && Nat.eqb c' j then Some c
                 else grid_cell g r c'.
Proof.
  intros [Hh Hw]. unfold grid_setitem, list_getitem.
  destruct (nth_error g i) as [row|] eqn:Erow; simpl; [|discriminate].
  destruct (list_setitem row j (Some c)) as [row'| |] eqn:Er; simpl;
    try discriminate.
  intros Hg.
  apply list_setitem_spec in Er as (Hj & Hlen & Hnth).
  apply list_setitem_spec in Hg as (Hi & Hlen' & Hnth').
  assert (Hrow : List.length row = width).
  { rewrite Forall_forall in Hw. apply Hw. eapply nth_error_In; eauto. }
  split; [lia|]. split; [lia|]. split.
  - split; [lia|]. rewrite Forall_forall in *. intros x Hx.
    apply In_nth_error in Hx as (m & Hm). rewrite Hnth' in Hm.
    destruct (Nat.eqb m i).
    + injection Hm as <-. lia.
    + apply Hw. eapply nth_error_In; eauto.
  - intros r c'. unfold grid_cell. rewrite Hnth'.
    destruct (Nat.eqb r i) eqn:Eri; simpl; [|reflexivity].
    apply Nat.eqb_eq in Eri; subst r. rewrite Erow, Hnth.
    destruct (Nat.eqb c' j); reflexivity.
Qed.

Lemma grid_setitem_returns (height width : nat) (g : grid) (i j : nat)
      (c : ascii) :
  grid_shape height width g -> i < height -> j < width ->
  exists g', grid_setitem g i j c = Return g'.
Proof.
  intros [Hh Hw] Hi Hj. unfold grid_setitem, list_getitem.
  destruct (nth_error g i) as [row|] eqn:Erow;
    [|apply nth_error_None in Erow; lia].
  simpl.
  assert (Hrow : List.length row = width).
  { rewrite Forall_forall in Hw. apply Hw. eapply nth_error_In; eauto. }
  destruct (list_setitem_returns row j (Some c)) as (row' & ->); [lia|].
  simpl. apply list_setitem_returns. lia.
Qed.

Lemma grid_setitem_outcome (g : grid) (i j : nat) (c : ascii) :
  grid_setitem g i j c = Raise IndexError \/
  exists g', grid_setitem g i j c = Return g'.
Proof.
  unfold grid_setitem, list_getitem.
  destruct (nth_error g i) as [row|] eqn:Erow; simpl; [|now left].
  destruct (Nat.lt_ge_cases j (List.length row)) as [Hj|Hj].
  - destruct (list_setitem_returns row j (Some c) Hj) as (row' & ->). simpl.
    right. apply list_setitem_returns.
    apply nth_error_Some. congruence.
  - rewrite list_setitem_raises by exact Hj. now left.
Qed.

Lemma string_get_none (w : string) (k : nat) :
  String.length w <= k -> String.get k w = None.
Proof.
  revert k; induction w as [|c w IH]; intros k; simpl; [reflexivity|].
  destruct k as [|k]; [lia|]. intros H. apply IH. lia.
Qed.

Section LetterGridFacts.
Context (height width : nat).

Lemma write_letters_spec (v : Var) (word : string) (ks : list nat)
      (g g' : grid) :
  grid_shape height width g ->
  write_letters v word ks g = Return g' ->
  grid_shape height width g' /\
  (forall k, In k ks -> cell_row v k < height /\ cell_col v k < width) /\
  forall r c, grid_cell g' r c
              = fold_left (write_step v word r c) ks (grid_cell g r c).
Proof.
  revert g; induction ks as [|k ks IH]; intros g Hs; simpl.
  - intros [= <-]. split; [exact Hs|]. split; [intros k []|reflexivity].
  - unfold str_index.
    destruct (String.get k word) as [ch|] eqn:Ech; simpl; [|discriminate].
    destruct (grid_setitem g (cell_row v k) (cell_col v k) ch) as [g1| |] eqn:Eg;
      simpl; try discriminate.
    destruct (grid_setitem_spec _ _ _ _ _ _ _ Hs Eg) as (Hi & Hj & Hs1 & Hcell).
    intros Hrun. destruct (IH g1 Hs1 Hrun) as (Hs' & Hin & Hcells).
    split; [exact Hs'|]. split.
    + intros k' [<-|Hk']; auto.
    + intros r c. rewrite Hcells, Hcell. f_equal.
      unfold write_step. now rewrite Ech.
Qed.

Lemma write_letters_returns (v : Var) (word : string) (ks : list nat)
      (g : grid) :
  grid_shape height width g ->
  (forall k, In k ks -> k < String.length word /\
                        cell_row v k < height /\ cell_col v k < width) ->
  exists g', write_letters v word ks g = Return g'.
Proof.
  revert g; induction ks as [|k ks IH]; intros g Hs Hk; simpl; [eauto|].
  destruct (Hk k (or_introl eq_refl)) as (Hlen & Hi & Hj).
  unfold str_index.
  destruct (string_get_some word k Hlen) as (ch & ->). simpl.
  destruct (grid_setitem_returns _ _ g _ _ ch Hs Hi Hj) as (g1 & Eg).
  rewrite Eg. simpl.
  apply IH; [|intros k' Hk'; apply Hk; now right].
  now destruct (grid_setitem_spec _ _ _ _ _ _ _ Hs Eg) as (_ & _ & Hs1 & _).
Qed.

Lemma write_letters_outcome (v : Var) (word : string) (ks : list nat)
      (g : grid) :
  write_letters v word ks g = Raise IndexError \/
  exists g', write_letters v word ks g = Return g'.
Proof.
  revert g; induction ks as [|k ks IH]; intros g; simpl; [eauto|].
  unfold str_index.
  destruct (String.get k word) as [ch|]; simpl; [|now left].
  destruct (grid_setitem_outcome g (cell_row v k) (cell_col v k) ch)
    as [->|(g1 & ->)]; simpl; [now left | apply IH].
Qed.

(** The letters of positions [s], ..., [s + n - 1] along one line. *)
Lemma fold_line (word : string) (b : bool) (p base : nat)
      (step : option ascii -> nat -> option ascii) :
  (forall acc k, step acc k
                 = if b && Nat.eqb p (base + k) then String.get k word else acc) ->
  forall n s old,
    fold_left step (seq s n) old
    = if b && Nat.leb (base + s) p && Nat.ltb p (base + s + n)
      then String.get (p - base) word else old.
Proof.
  intros Hstep n; induction n as [|n IH]; intros s old; simpl.
  - destruct b; simpl; [|reflexivity].
    destruct (Nat.leb (base + s) p) eqn:E1; simpl; [|reflexivity].
    destruct (Nat.ltb p (base + s + 0)) eqn:E2; [|reflexivity].
    apply Nat.leb_le in E1. apply Nat.ltb_lt in E2. lia.
  - rewrite IH, Hstep. destruct b; simpl; [|reflexivity].
    destruct (Nat.eqb p (base + s)) eqn:E0.
    + apply Nat.eqb_eq in E0.
      assert (Nat.leb (base + S s) p = false) as -> by (apply Nat.leb_gt; lia).
      assert (Nat.leb (base + s) p = true) as -> by (apply Nat.leb_le; lia).
      assert (Nat.ltb p (base + s + S n) = true) as ->
          by (apply Nat.ltb_lt; lia).
      simpl. f_equal. lia.
    + apply Nat.eqb_neq in E0.
      destruct (Nat.leb (base + S s) p) eqn:E1.
      * apply Nat.leb_le in E1.
        assert (Nat.leb (base + s) p = true) as -> by (apply Nat.leb_le; lia).
        simpl.
        replace (base + S s + n) with (base + s + S n) by lia. reflexivity.
      * apply Nat.leb_gt in E1. simpl.
        destruct (Nat.leb (base + s) p) eqn:E2; simpl; [|reflexivity].
        apply Nat.leb_le in E2. lia.
Qed.

Lemma fold_word (v : Var) (word : string) (r c : nat) (old : option ascii) :
  fold_left (write_step v word r c) (seq 0 (String.length word)) old
  = match letter_of v word r c with
    | Some ch => Some ch
    | None => old
    end.
Proof.
  unfold letter_of.
  destruct (var_direction v) eqn:Ed.
  - rewrite (fold_line word (Nat.eqb r (var_i v)) c (var_j v)).
    + rewrite Nat.add_0_r. simpl.
      destruct (Nat.eqb r (var_i v)); simpl; [|reflexivity].
      destruct (Nat.leb (var_j v) c) eqn:E1; simpl; [|reflexivity].
      apply Nat.leb_le in E1.
      destruct (Nat.ltb c (var_j v + String.length word)) eqn:E2.
      * apply Nat.ltb_lt in E2.
        destruct (string_get_some word (c - var_j v)) as (ch & ->);
          [lia | reflexivity].
      * apply Nat.ltb_ge in E2. rewrite string_get_none by lia. reflexivity.
    + intros acc k. unfold write_step, cell_row, cell_col. rewrite Ed.
      now rewrite Nat.add_0_r.
  - rewrite (fold_line word (Nat.eqb c (var_j v)) r (var_i v)).
    + rewrite Nat.add_0_r. simpl.
      destruct (Nat.eqb c (var_j v)); simpl; [|reflexivity].
      destruct (Nat.leb (var_i v) r) eqn:E1; simpl; [|reflexivity].
      apply Nat.leb_le in E1.
      destruct (Nat.ltb r (var_i v + String.length word)) eqn:E2.
      * apply Nat.ltb_lt in E2.
        destruct (string_get_some word (r - var_i v)) as (ch & ->);
          [lia | reflexivity].
      * apply Nat.ltb_ge in E2. rewrite string_get_none by lia. reflexivity.
    + intros acc k. unfold write_step, cell_row, cell_col. rewrite Ed.
      rewrite Nat.add_0_r. now rewrite andb_comm.
Qed.
End LetterGridFacts.

Section LetterGrid.
Context (height width : nat).

Lemma blank_grid_shape : grid_shape height width (blank_grid height width).
Proof.
  unfold grid_shape, blank_grid. split; [apply repeat_length|].
  apply Forall_forall. intros row Hrow. apply repeat_spec in Hrow. subst.
  apply repeat_length.
Qed.

Lemma blank_grid_cell (r c : nat) :
  grid_cell (blank_grid height width) r c = None.
Proof.
  unfold grid_cell, blank_grid.
  destruct (nth_error (repeat (repeat None width) height) r) as [row|] eqn:Er;
    [|reflexivity].
  apply nth_error_In, repeat_spec in Er. subst row.
  destruct (nth_error (repeat None width) c) as [x|] eqn:Ec; [|reflexivity].
  now apply nth_error_In, repeat_spec in Ec.
Qed.

Lemma letter_grid_loop_spec (a : Assignment) (g g' : grid) :
  grid_shape height width g ->
  letter_grid_loop a g = Return g' ->
  grid_shape height width g' /\
  Forall (fun p => word_fits height width (fst p) (snd p)) a /\
  forall r c,
    grid_cell g' r c
    = fold_left (fun acc p =>
                   match letter_of (fst p) (snd p) r c with
                   | Some ch => Some ch
                   | None => acc
                   end)
                a (grid_cell g r c).
Proof.
  revert g; induction a as [|[v word] a IH]; intros g Hs; simpl.
  - intros [= <-]. split; [exact Hs|]. split; [constructor | reflexivity].
  - destruct (write_letters v word (seq 0 (String.length word)) g)
      as [g1| |] eqn:Ew; simpl; try discriminate.
    destruct (write_letters_spec _ _ _ _ _ _ _ Hs Ew) as (Hs1 & Hin & Hcell).
    intros Hrun. destruct (IH g1 Hs1 Hrun) as (Hs' & Hfits & Hcells).
    split; [exact Hs'|]. split.
    + constructor; [|exact Hfits].
      intros k Hk. simpl in Hk |- *. apply Hin. apply in_seq. lia.
    + intros r c. rewrite Hcells, Hcell. f_equal. apply fold_word.
Qed.

Lemma letter_grid_loop_returns (a : Assignment) (g : grid) :
  grid_shape height width g ->
  Forall (fun p => word_fits height width (fst p) (snd p)) a ->
  exists g', letter_grid_loop a g = Return g'.
Proof.
  revert g; induction a as [|[v word] a IH]; intros g Hs Hfits; simpl;
    [eauto|].
  inversion Hfits as [|? ? Hfit Hrest]; subst. simpl in Hfit.
  destruct (write_letters_returns height width v word
              (seq 0 (String.length word)) g Hs) as (g1 & Ew).
  { intros k Hk. apply in_seq in Hk. split; [lia | apply Hfit; lia]. }
  rewrite Ew. simpl. apply IH; [|exact Hrest].
  now destruct (write_letters_spec _ _ _ _ _ _ _ Hs Ew).
Qed.

Lemma letter_grid_loop_outcome (a : Assignment) (g : grid) :
  letter_grid_loop a g = Raise IndexError \/
  exists g', letter_grid_loop a g = Return g'.
Proof.
  revert g; induction a as [|[v word] a IH]; intros g; simpl; [eauto|].
  destruct (write_letters_outcome v word (seq 0 (String.length word)) g)
    as [->|(g1 & ->)]; simpl; [now left | apply IH].
Qed.

(** X19: the array [letter_grid] returns has [height] rows of [width]
    cells. *)
Theorem letter_grid_shape (a : Assignment) (g : grid) :
  letter_grid height width a = Return g -> grid_shape height width g.
Proof.
  intros H. now apply (letter_grid_loop_spec a _ g blank_grid_shape) in H.
Qed.

(** X20: in the array [letter_grid] returns, a cell holds the letter that
    the last entry of the assignment reaching the cell has there, and
    [None] when no entry reaches it: where two words cross, the later
    entry wins. *)
Theorem letter_grid_cells (a : Assignment) (g : grid) :
  letter_grid height width a = Return g ->
  forall r c, grid_cell g r c = letter_at a r c.
Proof.
  intros H r c.
  apply (letter_grid_loop_spec a _ g blank_grid_shape) in H as (_ & _ & Hc).
  rewrite Hc, blank_grid_cell. reflexivity.
Qed.

(** X21: [letter_grid] returns exactly when every cell of every word of
    the assignment lies inside the grid; when some word sticks out it
    raises [IndexError], and it raises nothing else. *)
Theorem letter_grid_returns_iff_words_fit (a : Assignment) :
  (Forall (fun p => word_fits height width (fst p) (snd p)) a /\
   exists g, letter_grid height width a = Return g) \/
  (~ Forall (fun p => word_fits height width (fst p) (snd p)) a /\
   letter_grid height width a = Raise IndexError).
Proof.
  unfold letter_grid.
  destruct (letter_grid_loop_outcome a (blank_grid height width))
    as [Hr|(g & Hg)].
  - right. split; [|exact Hr]. intros Hfits.
    destruct (letter_grid_loop_returns a _ blank_grid_shape Hfits) as (g & Hg).
    congruence.
  - left. split; [|eauto].
    now apply (letter_grid_loop_spec a _ g blank_grid_shape) in Hg.
Qed.
End LetterGrid.

Lemma letter_grid_shape_witness :
  grid_shape 3 3 [[Some "C"%char; Some "A"%char; Some "T"%char];
                  [None; None; None]; [None; None; None]].
Proof.
  apply (letter_grid_shape 3 3 [(slotA, "CAT")]). reflexivity.
Defined.

Lemma letter_grid_cells_witness :
  grid_cell [[Some "C"%char; Some "O"%char; Some "T"%char];
             [None; Some "A"%char; None]; [None; Some "K"%char; None]] 0 1
  = letter_at [(slotA, "CAT"); (slotD, "OAK")] 0 1.
Proof.
  apply (letter_grid_cells 3 3 [(slotA, "CAT"); (slotD, "OAK")]). reflexivity.
Defined.

(** X22: [solve] finds a solution whenever the code's own tests admit one.
    On a grid whose slots have cells and whose overlap indices lie inside
    the slots, if some assignment of words of the vocabulary passes
    [assignment_complete] and [consistent], then [solve] on the domains
    built by the constructor returns an assignment. *)
Theorem solve_finds_solution (cw : Crossword) (fuel : nat) (r0 : Assignment) :
  slots_positive cw -> overlaps_in_range cw ->
  List.length (variables cw) < fuel ->
  from_vocabulary cw r0 -> checked cw r0 ->
  exists r, solve cw fuel (init_domains cw) = Return (Some r).
Proof.
  intros Hpos Hrange Hlt Hvoc Hch. unfold solve, solve_with.
  destruct (node_consistent_domains_aux cw) as (d1 & -> & Hl).
  destruct fuel as [|fuel]; [lia|].
  cbv beta iota delta [bind].
  change (ac3 cw (S fuel) None d1)
    with (Return (true, d1) : outcome (bool * Domains)).
  cbv beta iota.
  destruct (node_consistent_domains_wf cw d1 Hl) as [Hcov Hfit].
  destruct (backtrack_returns_aux cw Hrange d1 Hpos Hcov Hfit (S fuel) [])
    as ([[r|] a'] & Hb).
  - intros v H; discriminate.
  - rewrite count_unassigned_empty. exact Hlt.
  - rewrite Hb. eauto.
  - exfalso.
    apply (backtrack_exhaustive_aux cw (S fuel) d1 Hpos [] a' r0); auto.
    + intros v H; discriminate.
    + intros v w H; discriminate.
    + intros v w Hv Hw. rewrite Hl.
      apply (existsb_Var_eqb v) in Hv. rewrite Hv.
      eexists; split; [reflexivity|]. apply filter_In. split; [eauto|].
      destruct Hch as [_ Hc]. apply consistent_true_iff in Hc as [Hlen _].
      unfold fits. apply Nat.eqb_eq. eauto.
Qed.

Lemma solve_finds_solution_witness :
  exists r, solve single_cw 2 (init_domains single_cw) = Return (Some r).
Proof.
  apply (solve_finds_solution single_cw 2 [(slotA, "CAT")]).
  - intros v [<-|[]]; simpl; lia.
  - intros x y i j H; discriminate.
  - apply Nat.ltb_lt. reflexivity.
  - intros v w H. simpl in H.
    destruct (Var_eqb v slotA); [|discriminate]. injection H as <-.
    now left.
  - split; reflexivity.
Defined.
